(** * The upgrade plugin of FlexGet: quality-upgrade decisions

    A shallow embedding of [flexget/plugins/filter/upgrade.py]:
    [group_entries], [LazyUpgrade.prepare_config],
    [LazyUpgrade.on_task_filter] and [LazyUpgrade.on_task_learn],
    followed by the properties of the filter and learn phases. *)

From Stdlib Require Import ZArith String Ascii.
From stdpp Require Import gmap strings list fin_maps sorting.

Set Default Proof Using "Type".

(** ** Data model *)

(** Modelled from the spec: [flexget.utils.qualities] is not among the
    sources.  A quality is a totally ordered value; it is represented by its
    rank, an integer, and compared with the order of [Z]. *)
Abbreviation Quality := Z (only parsing).

(** An entry of the task, reduced to the fields the plugin reads:
    [entry['title']], [entry.get('id')] and [entry['quality']]. *)
Record Entry := mkEntry {
  title : string;
  entry_id : option string;
  quality : Quality
}.

(** The three operations of [entry_actions]. *)
Inductive Action := Accept | Reject | Fail.

(** The values the schema allows for [on_lower]. *)
Inductive OnLower := lower_accept | lower_reject | lower_fail | lower_skip.

#[global] Instance Action_eq_dec : EqDecision Action.
Proof. solve_decision. Defined.

#[global] Instance OnLower_eq_dec : EqDecision OnLower.
Proof. solve_decision. Defined.

(** The interface of [flexget.entry.Entry] the plugin calls.  The class is
    not among the sources: the state an entry carries, what [accept],
    [reject] and [fail] do to it, the [accepted] property and template
    rendering are taken as parameters. *)
Class EntryApi := {
  St : Type;
  entry_action : Action → string → St → St;
  accepted : St → bool;
  render : Entry → string → string
}.

(** The interface of [flexget.utils.qualities] the plugin calls:
    [qualities.Quality(spec)] and [qualities.Requirements(spec).allows(q)]. *)
Class QualityApi := {
  Quality_of : string → Quality;
  allows : string → Quality → bool
}.

(** A row of the [upgrade] table, without its primary key [id]; the table
    is a finite map from the key to the row. *)
Record EntryUpgrade := mkUpgrade {
  up_title : option string;
  up_quality : Quality;
  up_proper : option bool;
  up_added : Z
}.

(** The plugin configuration as the schema admits it: absent, a boolean, or
    an object whose four keys are all optional. *)
Record ConfigDict := mkDict {
  d_identified_by : option string;
  d_tracking : option bool;
  d_target : option string;
  d_on_lower : option OnLower
}.

Inductive Config :=
| CNone
| CBool (b : bool)
| CDict (d : ConfigDict).

(** The dictionary [prepare_config] returns: every key is set. *)
Record Prepared := mkPrepared {
  identified_by : string;
  tracking : bool;
  on_lower : OnLower;
  target : option string
}.

(** Python truth of a configuration value: [None], [False] and the empty
    dictionary are false. *)
Definition truthy (config : Config) : bool :=
  match config with
  | CNone => false
  | CBool b => b
  | CDict d =>
      bool_decide (is_Some (d_identified_by d)) || bool_decide (is_Some (d_tracking d))
      || bool_decide (is_Some (d_target d)) || bool_decide (is_Some (d_on_lower d))
  end.

Definition empty_dict : ConfigDict := mkDict None None None None.

Definition prepare_config (config : Config) : Prepared :=
  let d :=
    match config with
    | CDict d => if truthy config then d else empty_dict
    | _ => empty_dict
    end in
  {| identified_by := default "auto"%string (d_identified_by d);
     tracking := default true (d_tracking d);
     on_lower := default lower_skip (d_on_lower d);
     target := d_target d |}.

(** ** Strings *)

(** [str.lower()] on the ASCII range. *)
Definition lower_ascii (c : ascii) : ascii :=
  let n := nat_of_ascii c in
  if (65 <=? n)%nat && (n <=? 90)%nat then ascii_of_nat (n + 32) else c.

Fixpoint lower (s : string) : string :=
  match s with
  | EmptyString => EmptyString
  | String c s' => String (lower_ascii c) (lower s')
  end.

(** The name of an [on_lower] value, as it is formatted into a message. *)
Definition on_lower_name (o : OnLower) : string :=
  match o with
  | lower_accept => "accept"
  | lower_reject => "reject"
  | lower_fail => "fail"
  | lower_skip => "skip"
  end.

(** [entry_actions[config['on_lower']]]; [None] stands for the [KeyError]
    of the key ['skip'], which the guard before the loop excludes. *)
Definition entry_actions (o : OnLower) : option Action :=
  match o with
  | lower_accept => Some Accept
  | lower_reject => Some Reject
  | lower_fail => Some Fail
  | lower_skip => None
  end.

Definition msg_upgraded : string := "upgraded quality".

Definition msg_target (o : OnLower) : string :=
  "on_lower " +:+ on_lower_name o +:+ " because already at target quality".

Definition msg_lower (o : OnLower) : string :=
  "on_lower " +:+ on_lower_name o +:+ " because lower then existing quality".

Definition msg_entries (o : OnLower) : string :=
  "on_lower " +:+ on_lower_name o +:+ " because lower quality compared to entries".

(** ** Grouping *)

(** An entry is referred to by a pair: its position in [task.entries] (the
    identity of the object) together with the fields read from it. *)
Definition rquality (r : nat * Entry) : Quality := quality r.2.

(** [grouped_entries[k].append(x)] on a dictionary kept in insertion
    order. *)
Fixpoint append_to (k : string) (x : nat * Entry) (g : list (string * list (nat * Entry)))
  : list (string * list (nat * Entry)) :=
  match g with
  | [] => [(k, [x])]
  | (k', xs) :: g' =>
      if decide (k = k') then (k', xs ++ [x]) :: g' else (k', xs) :: append_to k x g'
  end.

(** The entries of a task paired with their positions. *)
Definition refs (entries : list Entry) : list (nat * Entry) :=
  imap (λ i e, (i, e)) entries.

Section Grouping.
Context `{EA : EntryApi}.

(** [entry.get('id') if identified_by == 'auto' else entry.render(identified_by)] *)
Definition identifier_of (identified_by : string) (e : Entry) : option string :=
  if decide (identified_by = "auto"%string) then entry_id e
  else Some (render e identified_by).

(** The key an entry is filed under: [None] when [not identifier]. *)
Definition group_key (identified_by : string) (e : Entry) : option string :=
  match identifier_of identified_by e with
  | None => None
  | Some s => if decide (s = ""%string) then None else Some (lower s)
  end.

Definition group_step (identified_by : string)
    (g : list (string * list (nat * Entry))) (r : nat * Entry) :=
  match group_key identified_by r.2 with
  | None => g
  | Some k => append_to k r g
  end.

Definition group_entries (entries : list Entry) (identified_by : string)
  : list (string * list (nat * Entry)) :=
  foldl (group_step identified_by) [] (refs entries).
End Grouping.

(** [entries.sort(key=lambda e: e['quality'], reverse=True)]: a stable sort,
    best quality first; entries of equal quality keep their order. *)
Fixpoint insert_desc (x : nat * Entry) (l : list (nat * Entry)) : list (nat * Entry) :=
  match l with
  | [] => [x]
  | y :: l' => if (rquality y <=? rquality x)%Z then x :: l else y :: insert_desc x l'
  end.

Definition sort_desc (l : list (nat * Entry)) : list (nat * Entry) :=
  foldr insert_desc [] l.

(** ** The run state of a phase *)

(** One call [action(entry, reason)] on the entry at a position. *)
Record Call := mkCall {
  call_entry : nat;
  call_action : Action;
  call_reason : string
}.

Section Phases.
Context `{EA : EntryApi} `{QA : QualityApi}.

(** What a filter phase acts on: the state of every entry of the task, by
    position, and the calls made on entries so far, oldest first. *)
Record Run := mkRun {
  states : list St;
  trace : list Call
}.

(** [action(entry, msg)]: the entry object at position [i] is updated in
    place and the call is recorded. *)
Definition do_action (a : Action) (i : nat) (msg : string) (r : Run) : Run :=
  {| states := alter (entry_action a msg) i (states r);
     trace := trace r ++ [mkCall i a msg] |}.

(** [entry.accepted] for the entry at position [i]. *)
Definition is_accepted (i : nat) (r : Run) : bool :=
  from_option accepted false (states r !! i).

(** ** The filter phase *)

(** The body of the loop [for entry in entries] under "Action lower
    qualities"; [best] is [entries[0]]. *)
Definition lower_step (o : OnLower) (existing : EntryUpgrade) (best : nat * Entry)
    (target_downloaded : bool) (r : Run) (entry : nat * Entry) : Run :=
  match entry_actions o with
  | None => r
  | Some action =>
      let r :=
        if (rquality entry >? up_quality existing)%Z && target_downloaded
        then do_action action entry.1 (msg_target o) r else r in
      let r :=
        if (rquality entry <? up_quality existing)%Z
        then do_action action entry.1 (msg_lower o) r else r in
      if is_accepted best.1 r && (rquality best >? rquality entry)%Z
      then do_action action entry.1 (msg_entries o) r else r
  end.

(** Python truth of [config['target']]: [None] and the empty string are
    false. *)
Definition target_set (config : Prepared) : option string :=
  match target config with
  | Some t => if decide (t = ""%string) then None else Some t
  | None => None
  end.

(** [entries = list(filter(lambda e: target_requirement.allows(e['quality']), entries))]
    when a target is set. *)
Definition within_target (config : Prepared) (entries : list (nat * Entry))
  : list (nat * Entry) :=
  match target_set config with
  | Some t => filter (λ e, allows t (rquality e)) entries
  | None => entries
  end.

(** [existing.quality > target_quality or target_requirement.allows(existing.quality)]
    when a target is set. *)
Definition at_target (config : Prepared) (existing : EntryUpgrade) : bool :=
  match target_set config with
  | Some t => (up_quality existing >? Quality_of t)%Z || allows t (up_quality existing)
  | None => false
  end.

(** The body of the loop over [grouped_entries.items()] in
    [on_task_filter]; every [continue] returns the run unchanged. *)
Definition filter_group (config : Prepared) (existing : option EntryUpgrade)
    (entries : list (nat * Entry)) (r : Run) : Run :=
  match entries with
  | [] => r
  | _ :: _ =>
  match existing with
  | None => r
  | Some existing =>
      let target_downloaded := false in
      let entries := within_target config entries in
      if at_target config existing then r
      else if bool_decide (length entries = 0) then r
      else
        let entries := sort_desc entries in
        match entries !! 0 with
        | None => r
        | Some best =>
            let r :=
              if (rquality best >? up_quality existing)%Z
              then do_action Accept best.1 msg_upgraded r else r in
            if bool_decide (on_lower config ≠ lower_skip)
            then foldl (lower_step (on_lower config) existing best target_downloaded) r entries
            else r
        end
  end
  end.

(** [session.query(EntryUpgrade).filter(EntryUpgrade.id.in_(keys)).all()]
    turned into the dictionary [{e.id: e}]. *)
Definition prefetch (session : gmap string EntryUpgrade) (keys : list string)
  : gmap string EntryUpgrade :=
  filter (λ kv, kv.1 ∈ keys) session.

Definition on_task_filter (config : Config) (session : gmap string EntryUpgrade)
    (entries : list Entry) (sts : list St) : Run :=
  let r := mkRun sts [] in
  if negb (truthy config) then r
  else
    let config := prepare_config config in
    let grouped_entries := group_entries entries (identified_by config) in
    let existing_ids := prefetch session grouped_entries.*1 in
    foldl (λ r g, filter_group config (existing_ids !! g.1) g.2 r) r grouped_entries.

(** ** The learn phase *)

(** The body of the loop over [grouped_entries.items()] in
    [on_task_learn].  [existing] is the row object fetched before the loop;
    assigning to its attributes writes the row of key [identifier]. *)
Definition learn_group (now : Z) (existing_ids : gmap string EntryUpgrade)
    (session : gmap string EntryUpgrade) (g : string * list (nat * Entry))
  : gmap string EntryUpgrade :=
  let identifier := g.1 in
  match g.2 with
  | [] => session
  | _ :: _ =>
      match sort_desc g.2 !! 0 with
      | None => session
      | Some best_entry =>
          match existing_ids !! identifier with
          | None =>
              <[identifier := mkUpgrade (Some (title best_entry.2)) (rquality best_entry)
                                None now]> session
          | Some existing =>
              if (up_quality existing >? rquality best_entry)%Z then session
              else
                <[identifier := mkUpgrade (Some (title best_entry.2)) (rquality best_entry)
                                  (up_proper existing) now]> session
          end
      end
  end.

(** [task_accepted] is [task.accepted]; [now] is what [datetime.now()]
    returns during the phase. *)
Definition on_task_learn (config : Config) (session : gmap string EntryUpgrade)
    (task_accepted : list Entry) (now : Z) : gmap string EntryUpgrade :=
  let config := prepare_config config in
  if negb (tracking config) then session
  else
    let grouped_entries := group_entries task_accepted (identified_by config) in
    let existing_ids := prefetch session grouped_entries.*1 in
    foldl (learn_group now existing_ids) session grouped_entries.
End Phases.

(** ** A concrete pipeline, to run the scenarios *)

(** Modelled from the spec: [flexget.entry.Entry] is not among the sources.
    An item carries a disposition, pending, accepted, rejected or failed, and
    the reason given with the operation that set it; [accept], [reject] and
    [fail] set both. *)
Inductive Disposition := pending | was_accepted | was_rejected | was_failed.

#[global] Instance Disposition_eq_dec : EqDecision Disposition.
Proof. solve_decision. Defined.

Record ItemState := mkItem {
  disposition : Disposition;
  reason : option string
}.

Definition disposition_of (a : Action) : Disposition :=
  match a with
  | Accept => was_accepted
  | Reject => was_rejected
  | Fail => was_failed
  end.

Definition item_entry : EntryApi :=
  {| St := ItemState;
     entry_action a msg _ := mkItem (disposition_of a) (Some msg);
     accepted s := bool_decide (disposition s = was_accepted);
     render e template := template |}.

(** A sample quality model: three named resolutions, and a requirement
    that allows every quality at or above the one it names. *)
Definition sample_rank (s : string) : Quality :=
  if decide (s = "1080p"%string) then 1080%Z
  else if decide (s = "720p"%string) then 720%Z
  else if decide (s = "480p"%string) then 480%Z
  else 0%Z.

Definition sample_quality : QualityApi :=
  {| Quality_of := sample_rank;
     allows t q := (sample_rank t <=? q)%Z |}.

Definition fresh : ItemState := mkItem pending None.

(** ** Notions used to state the properties *)

(** The list filed under a key of the grouped dictionary, empty when the key
    is absent. *)
Fixpoint members (k : string) (g : list (string * list (nat * Entry)))
  : list (nat * Entry) :=
  match g with
  | [] => []
  | (k', xs) :: g' => if decide (k = k') then xs else members k g'
  end.

(** The calls of a trace made on the entry at position [i]. *)
Definition calls_on (i : nat) (cs : list Call) : list Call :=
  filter (λ c, call_entry c = i) cs.

(** The calls one filter phase can make on the entry at position [i]: none;
    the single [accept] of an upgrade; or the configured action, once for
    each of the two conditions of the lower-quality loop that holds. *)
Inductive entry_calls (o : OnLower) (i : nat) : list Call → Prop :=
| no_call : entry_calls o i []
| upgraded_only : entry_calls o i [mkCall i Accept msg_upgraded]
| lower_only a :
    entry_actions o = Some a → entry_calls o i [mkCall i a (msg_lower o)]
| entries_only a :
    entry_actions o = Some a → entry_calls o i [mkCall i a (msg_entries o)]
| lower_and_entries a :
    entry_actions o = Some a →
    entry_calls o i [mkCall i a (msg_lower o); mkCall i a (msg_entries o)].

Section Plans.
Context `{EA : EntryApi} `{QA : QualityApi}.

(** The state of one entry after the calls made on it, in order. *)
Definition apply_calls (cs : list Call) (s : St) : St :=
  foldl (λ s c, entry_action (call_action c) (call_reason c) s) s cs.

(** The states of the entries after a list of calls, made in order. *)
Definition replay (cs : list Call) (sts : list St) : list St :=
  foldl (λ s c, alter (entry_action (call_action c) (call_reason c)) (call_entry c) s)
    sts cs.

Definition run_calls (cs : list Call) (r : Run) : Run :=
  {| states := replay cs (states r); trace := trace r ++ cs |}.

(** The calls one iteration of the lower-quality loop makes on [entry],
    when [entries[0].accepted] reads [flag]. *)
Definition step_calls (o : OnLower) (existing : EntryUpgrade) (flag : bool)
    (best entry : nat * Entry) : list Call :=
  match entry_actions o with
  | None => []
  | Some action =>
      (if (rquality entry <? up_quality existing)%Z
       then [mkCall entry.1 action (msg_lower o)] else [])
      ++ (if flag && (rquality best >? rquality entry)%Z
          then [mkCall entry.1 action (msg_entries o)] else [])
  end.

(** The calls the filter phase makes for one group, read off the states
    the entries have when the group is reached. *)
Definition group_calls (config : Prepared) (existing : option EntryUpgrade)
    (entries : list (nat * Entry)) (sts : list St) : list Call :=
  match existing with
  | None => []
  | Some existing =>
      if at_target config existing then []
      else
        match sort_desc (within_target config entries) with
        | [] => []
        | best :: rest =>
            let first :=
              if (rquality best >? up_quality existing)%Z
              then [mkCall best.1 Accept msg_upgraded] else [] in
            let own := step_calls (on_lower config) existing false best best in
            let flag :=
              from_option accepted false (replay (first ++ own) sts !! best.1) in
            first ++ own ++ (rest ≫= step_calls (on_lower config) existing flag best)
        end
  end.

(** The calls of a whole filter phase. *)
Definition filter_calls (config : Config) (session : gmap string EntryUpgrade)
    (entries : list Entry) (sts : list St) : list Call :=
  if truthy config then
    let cfg := prepare_config config in
    group_entries entries (identified_by cfg)
      ≫= (λ g, group_calls cfg (session !! g.1) g.2 sts)
  else [].
End Plans.

(** ** The scenarios of the specification *)

Definition show_id : string := "show.s01e01".

Definition record_720 : EntryUpgrade :=
  mkUpgrade (Some "Show S01E01 720p"%string) 720 None 0.

Definition record_1080 : EntryUpgrade :=
  mkUpgrade (Some "Show S01E01 1080p"%string) 1080 None 0.

(** A store holding one record, of quality 720p, for the identifier. *)
Definition store_720 : gmap string EntryUpgrade :=
  {[ show_id := record_720 ]}.

Definition store_1080 : gmap string EntryUpgrade :=
  {[ show_id := record_1080 ]}.

Definition item_480 : Entry := mkEntry "Show S01E01 480p" (Some "Show.S01E01"%string) 480.
Definition item_720 : Entry := mkEntry "Show S01E01 720p" (Some "show.s01e01"%string) 720.
Definition item_1080 : Entry := mkEntry "Show S01E01 1080p" (Some "show.s01e01"%string) 1080.

Definition item_720_repack : Entry :=
  mkEntry "Show S01E01 720p REPACK" (Some "show.s01e01"%string) 720.

(** An object configuration that only sets [on_lower]. *)
Definition config_on_lower (o : OnLower) : Config :=
  CDict (mkDict None None None (Some o)).

(** The two phases on the concrete pipeline. *)
Definition item_filter : Config → gmap string EntryUpgrade → list Entry →
    list ItemState → @Run item_entry :=
  @on_task_filter item_entry sample_quality.

Definition item_learn : Config → gmap string EntryUpgrade → list Entry → Z →
    gmap string EntryUpgrade :=
  @on_task_learn item_entry.

(** The reading of "no item has more than one disposition applied" on the
    calls of a run. *)
Definition at_most_one_call `{EA : EntryApi} (r : Run) : Prop :=
  ∀ i, length (calls_on i (trace r)) ≤ 1.

(** The reading of "a record at least as good as the best accepted entry
    is left entirely unchanged" on one learn phase. *)
Definition learn_leaves_record `{EA : EntryApi} (config : Config)
    (db : gmap string EntryUpgrade) (acc : list Entry) (now : Z) : Prop :=
  ∀ k xs r best rest,
    (k, xs) ∈ group_entries acc (identified_by (prepare_config config)) →
    db !! k = Some r →
    sort_desc xs = best :: rest →
    (rquality best ≤ up_quality r)%Z →
    on_task_learn config db acc now !! k = Some r.

(** Two entries lie in the same group of a grouped dictionary. *)
Definition same_group (G : list (string * list (nat * Entry))) (x y : nat * Entry) : Prop :=
  ∃ k xs, (k, xs) ∈ G ∧ x ∈ xs ∧ y ∈ xs.

(** One invocation of the learn phase: the configuration, [task.accepted]
    and the time of the run. *)
Record LearnRun := mkLearnRun {
  run_config : Config;
  run_accepted : list Entry;
  run_now : Z
}.

(** A sequence of learn-phase invocations on one store. *)
Definition learn_many `{EA : EntryApi} (session : gmap string EntryUpgrade)
    (runs : list LearnRun) : gmap string EntryUpgrade :=
  foldl (λ db run, on_task_learn (run_config run) db (run_accepted run) (run_now run))
    session runs.

(** ** The rutracker plugin *)

(** What follows embeds [flexget/plugins/modify/plugin_rutracker.py]. *)

(** A cookie jar, or the dictionary made from one. *)
Abbreviation Cookies := (list (string * string)) (only parsing).

(** A row of the table of [RutrackerAccount], without its generated key;
    the table is the list of its rows, in the order a query returns them. *)
Record RutrackerAccount := mkAccount {
  login : string;
  cookies : Cookies;
  expiry_time : Z
}.

(** The exceptions the plugin raises. *)
Inductive AuthError := PluginError | ValueError | IndexError.

(** A digit, as the pattern [\d] matches it on ASCII text. *)
Definition is_digit (c : ascii) : bool :=
  let n := nat_of_ascii c in (48 <=? n)%nat && (n <=? 57)%nat.

(** The longest run of digits a string starts with. *)
Fixpoint take_digits (s : string) : string :=
  match s with
  | EmptyString => EmptyString
  | String c s' => if is_digit c then String c (take_digits s') else EmptyString
  end.

(** [re.findall(r'\d+', url)[0]]: the first maximal run of digits of the
    url; [None] stands for the [IndexError] raised when there is none. *)
Fixpoint first_number (url : string) : option string :=
  match url with
  | EmptyString => None
  | String c url' => if is_digit c then Some (take_digits url) else first_number url'
  end.

(** What [RutrackerAuth.__call__] prepares the request with: the arguments
    of [prepare_body], [prepare_method], [prepare_url], [prepare_headers] and
    [prepare_cookies]. *)
Record PreparedRequest := mkRequest {
  req_body : string;
  req_method : string;
  req_url : string;
  req_headers : list (string * string);
  req_cookies : Cookies
}.

(** [RutrackerAuth.__call__(r)], on the url of the request. *)
Definition RutrackerAuth_call (cookies_ : Cookies) (url : string)
  : AuthError + PreparedRequest :=
  match first_number url with
  | None => inl IndexError
  | Some id =>
      let data := ("t=" +:+ id)%string in
      let headers :=
        [("referer", "http://rutracker.org/forum/viewtopic.php?t=" +:+ id);
         ("Content-Type", "application/x-www-form-urlencoded");
         ("t", id);
         ("Origin", "http://rutracker.org");
         ("Accept-Encoding", "gzip,deflate,sdch")]%string in
      inr {| req_body := data;
             req_method := "POST";
             req_url := "http://dl.rutracker.org/forum/dl.php?t=" +:+ id;
             req_headers := headers;
             req_cookies := cookies_ |}
  end.

(** Every character of a string passes a test. *)
Fixpoint all_chars (p : ascii → bool) (s : string) : bool :=
  match s with
  | EmptyString => true
  | String c s' => p c && all_chars p s'
  end.

Definition no_digit (c : ascii) : bool := negb (is_digit c).

(** The length of a day, in the unit of the clock (seconds). *)
Definition one_day : Z := 86400.

(** [RutrackerAuth.__init__(login, password, cookies, db_session)].  [post]
    gives the cookies of the response to the login request; a session that
    is [None] is [None] here.  The result is the exception raised, or the
    session after the call with the cookies the handler keeps. *)
Definition RutrackerAuth_init (post : string → string → Cookies)
    (login_ password : string) (cookies_arg : option Cookies)
    (db_session : option (list RutrackerAccount)) (now : Z)
  : AuthError + (option (list RutrackerAccount) * Cookies) :=
  match cookies_arg with
  | None =>
      let auth_response := post login_ password in
      if bool_decide (length auth_response = 0) then inl PluginError
      else
        match db_session with
        | Some db =>
            inr (Some (db ++ [mkAccount login_ auth_response (now + one_day)]),
                 auth_response)
        | None => inl ValueError
        end
  | Some c => inr (db_session, c)
  end.

(** [RutrackerModify.try_find_cookie(db_session, username)]: the session
    after the call and the value returned. *)
Definition try_find_cookie (db : list RutrackerAccount) (username : string) (now : Z)
  : list RutrackerAccount * option Cookies :=
  match list_find (λ a, login a = username) db with
  | Some (i, account) =>
      if (expiry_time account <? now)%Z then (delete i db, None)
      else (db, Some (cookies account))
  | None => (db, None)
  end.

(** An accepted entry, reduced to [entry['url']] and
    [entry['download_auth']]; a handler is known by the cookies it keeps. *)
Record UrlEntry := mkUrlEntry {
  url : string;
  download_auth : option Cookies
}.

(** What the plugin keeps between runs: the table of accounts and the
    class attribute [auth_cache]. *)
Record AuthState := mkAuthState {
  accounts : list RutrackerAccount;
  auth_cache : gmap string Cookies
}.

Definition topic_prefix : string := "http://rutracker.org/forum/viewtopic.php".

(** The loop over [task.accepted] that attaches the handler. *)
Definition attach_auth (auth_handler : Cookies) (entry : UrlEntry) : UrlEntry :=
  if String.prefix topic_prefix (url entry)
  then mkUrlEntry (url entry) (Some auth_handler)
  else entry.

(** [RutrackerModify.on_task_urlrewrite(task, config)]: the state after the
    call, and the exception raised or [task.accepted] as the call leaves it.
    [now] is the time read in [try_find_cookie], [later] the time read when
    an account is created. *)
Definition on_task_urlrewrite (post : string → string → Cookies) (st : AuthState)
    (username password : string) (now later : Z) (task_accepted : list UrlEntry)
  : AuthState * (AuthError + list UrlEntry) :=
  let '(db, cookies_found) := try_find_cookie (accounts st) username now in
  match auth_cache st !! username with
  | None =>
      match RutrackerAuth_init post username password cookies_found (Some db) later with
      | inl err => (mkAuthState db (auth_cache st), inl err)
      | inr (db', auth_handler) =>
          (mkAuthState (default db db') (<[username := auth_handler]> (auth_cache st)),
           inr (attach_auth auth_handler <$> task_accepted))
      end
  | Some auth_handler =>
      (mkAuthState db (auth_cache st), inr (attach_auth auth_handler <$> task_accepted))
  end.

(** An entry without identifier. *)
Definition item_noid : Entry := mkEntry "Some file" None 1080.

(** A configuration with a target and [on_lower] set to [reject]. *)
Definition config_target_1080 : Config :=
  CDict (mkDict None None (Some "1080p"%string) (Some lower_reject)).

(** Sample data for the rutracker plugin. *)
Definition alice_cookies : Cookies := [("bb_data", "1-42-abc")]%string.

Definition sample_post (login_ password : string) : Cookies :=
  if decide (password = "secret"%string) then [("bb_data", "1-42-new")]%string else [].

Definition alice_expired : RutrackerAccount := mkAccount "alice" alice_cookies 10.
Definition alice_good : RutrackerAccount := mkAccount "alice" alice_cookies 1000.
Definition bob_good : RutrackerAccount := mkAccount "bob" [("bb_data", "1-7-bob")]%string 1000.

Definition topic_entry : UrlEntry :=
  mkUrlEntry "http://rutracker.org/forum/viewtopic.php?t=4242" None.
Definition other_entry : UrlEntry :=
  mkUrlEntry "http://example.org/file.torrent" None.

(** What a record says about the content it tracks: all but the time. *)
Definition record_content (r : EntryUpgrade) : option string * Z * option bool :=
  (up_title r, up_quality r, up_proper r).

(** Case analysis on membership in an explicit list. *)
Ltac elem_cases H :=
  repeat (let Heq := fresh "Heq" in
          apply elem_of_cons in H as [Heq|H]; [try simplify_eq|]);
  try by apply elem_of_nil in H.

(** * Properties *)

(** ** The grouped dictionary *)

Lemma members_append_to k k' x g :
  members k (append_to k' x g) =
  if decide (k = k') then members k g ++ [x] else members k g.
Proof.
  induction g as [|[k0 xs] g IH]; simpl.
  - by destruct (decide (k = k')).
  - destruct (decide (k' = k0)) as [->|Hne]; simpl.
    + by destruct (decide (k = k0)).
    + rewrite IH. destruct (decide (k = k0)) as [->|]; [by rewrite decide_False|done].
Qed.

Lemma keys_append_to k x g :
  (append_to k x g).*1 = if decide (k ∈ g.*1) then g.*1 else g.*1 ++ [k].
Proof.
  induction g as [|[k0 xs] g IH]; csimpl.
  - done.
  - destruct (decide (k = k0)) as [->|Hne]; csimpl.
    + rewrite decide_True; [done|]. apply elem_of_cons; by left.
    + rewrite IH. destruct (decide (k ∈ g.*1)) as [Hin|Hnin].
      * rewrite decide_True; [done|]. apply elem_of_cons; by right.
      * rewrite decide_False; [done|]. rewrite elem_of_cons. tauto.
Qed.

Lemma NoDup_keys_append_to k x g :
  NoDup g.*1 → NoDup (append_to k x g).*1.
Proof.
  intros Hnd. rewrite keys_append_to. destruct (decide (k ∈ g.*1)); [done|].
  apply NoDup_app. split_and!; [done| |apply NoDup_singleton].
  intros y Hy ->%list_elem_of_singleton. done.
Qed.

Lemma members_elem_of k xs g :
  NoDup g.*1 → (k, xs) ∈ g → members k g = xs.
Proof.
  induction g as [|[k0 ys] g IH]; simpl; intros Hnd Hin.
  - by apply elem_of_nil in Hin.
  - apply NoDup_cons in Hnd as [Hk0 Hnd].
    apply elem_of_cons in Hin as [[= <- <-]|Hin].
    + by rewrite decide_True.
    + destruct (decide (k = k0)) as [->|]; [|by apply IH].
      exfalso. apply Hk0. by apply (list_elem_of_fmap_2 fst _ (k0, xs)).
Qed.

Lemma members_nil_not_key k g :
  k ∉ g.*1 → members k g = [].
Proof.
  induction g as [|[k0 ys] g IH]; simpl; [done|].
  rewrite not_elem_of_cons. intros [Hne Hnin]. by rewrite decide_False; [apply IH|].
Qed.

Lemma elem_of_members k g :
  k ∈ g.*1 → (k, members k g) ∈ g.
Proof.
  induction g as [|[k0 ys] g IH]; simpl.
  - by intros ?%elem_of_nil.
  - destruct (decide (k = k0)) as [->|Hne]; intros Hin.
    + apply elem_of_cons; by left.
    + apply elem_of_cons in Hin as [?|Hin]; [done|].
      apply elem_of_cons; right. by apply IH.
Qed.

Section GroupingFacts.
Context `{EA : EntryApi}.

Lemma members_group_fold idby l g k :
  members k (foldl (group_step idby) g l) =
  members k g ++ filter (λ r, group_key idby r.2 = Some k) l.
Proof.
  revert g. induction l as [|r l IH]; intros g; simpl.
  - by rewrite app_nil_r.
  - rewrite IH. unfold group_step.
    destruct (group_key idby r.2) as [k'|] eqn:Hk.
    + rewrite members_append_to. destruct (decide (k = k')) as [->|Hne].
      * rewrite filter_cons_True by done. by rewrite <-app_assoc.
      * rewrite filter_cons_False; [done|]. rewrite Hk. congruence.
    + rewrite filter_cons_False; [done|]. by rewrite Hk.
Qed.

Lemma keys_group_fold idby l g k :
  k ∈ (foldl (group_step idby) g l).*1 ↔
  k ∈ g.*1 ∨ ∃ r, r ∈ l ∧ group_key idby r.2 = Some k.
Proof.
  revert g. induction l as [|r l IH]; intros g; simpl.
  - split; [by left|]. intros [?|(r & Hr & _)]; [done|]. by apply elem_of_nil in Hr.
  - rewrite IH. unfold group_step at 1.
    destruct (group_key idby r.2) as [k'|] eqn:Hk.
    + rewrite keys_append_to. destruct (decide (k' ∈ g.*1)) as [Hin|Hnin].
      * split.
        -- intros [?|(r' & Hr' & Hk')]; [by left|]. right. exists r'.
           split; [by apply elem_of_cons; right|done].
        -- intros [?|(r' & Hr' & Hk')]; [by left|].
           apply elem_of_cons in Hr' as [->|Hr'].
           ++ left. congruence.
           ++ right. by exists r'.
      * rewrite elem_of_app, list_elem_of_singleton. split.
        -- intros [[?| ->]|(r' & Hr' & Hk')]; [by left| |].
           ++ right. exists r. split; [apply elem_of_cons; by left|done].
           ++ right. exists r'. split; [by apply elem_of_cons; right|done].
        -- intros [?|(r' & Hr' & Hk')]; [by left; left|].
           apply elem_of_cons in Hr' as [->|Hr'].
           ++ left; right. congruence.
           ++ right. by exists r'.
    + split.
      * intros [?|(r' & Hr' & Hk')]; [by left|]. right. exists r'.
        split; [by apply elem_of_cons; right|done].
      * intros [?|(r' & Hr' & Hk')]; [by left|].
        apply elem_of_cons in Hr' as [->|Hr']; [congruence|]. right. by exists r'.
Qed.

Lemma NoDup_keys_group_fold idby l g :
  NoDup g.*1 → NoDup (foldl (group_step idby) g l).*1.
Proof.
  revert g. induction l as [|r l IH]; intros g Hnd; simpl; [done|].
  apply IH. unfold group_step. destruct (group_key idby r.2); [|done].
  by apply NoDup_keys_append_to.
Qed.

(** The keys of the grouped dictionary are pairwise distinct. *)
Lemma NoDup_keys_group_entries entries idby :
  NoDup (group_entries entries idby).*1.
Proof. apply NoDup_keys_group_fold. simpl. apply NoDup_nil_2. Qed.

(** The list filed under a key holds exactly the entries with that key,
    in the order of the task. *)
Lemma members_group_entries entries idby k :
  members k (group_entries entries idby) =
  filter (λ r, group_key idby r.2 = Some k) (refs entries).
Proof. unfold group_entries. by rewrite members_group_fold. Qed.

Lemma group_entries_elem_of entries idby k xs :
  (k, xs) ∈ group_entries entries idby →
  xs = filter (λ r, group_key idby r.2 = Some k) (refs entries).
Proof.
  intros Hin. rewrite <-members_group_entries. symmetry.
  apply members_elem_of; [apply NoDup_keys_group_entries|done].
Qed.

Lemma group_entries_key entries idby k :
  k ∈ (group_entries entries idby).*1 ↔
  ∃ r, r ∈ refs entries ∧ group_key idby r.2 = Some k.
Proof.
  unfold group_entries. rewrite keys_group_fold. simpl. split.
  - intros [?%elem_of_nil|?]; done.
  - by right.
Qed.
End GroupingFacts.

Lemma refs_fst entries : (refs entries).*1 = seq 0 (length entries).
Proof.
  unfold refs. rewrite fmap_imap.
  rewrite (imap_ext _ (λ i _, i)) by done.
  by rewrite imap_seq_0, list_fmap_id.
Qed.

Lemma elem_of_refs entries r : r ∈ refs entries ↔ entries !! r.1 = Some r.2.
Proof.
  unfold refs. rewrite elem_of_lookup_imap. destruct r as [i e]; simpl. split.
  - by intros (i' & e' & [= -> ->] & Hl).
  - intros Hl. by exists i, e.
Qed.

Lemma NoDup_refs_fst entries : NoDup (refs entries).*1.
Proof. rewrite refs_fst. apply NoDup_seq. Qed.

Lemma NoDup_fst_filter {A B} (P : A * B → Prop) `{!∀ x, Decision (P x)} (l : list (A * B)) :
  NoDup l.*1 → NoDup (filter P l).*1.
Proof.
  intros Hnd. eapply sublist_NoDup; [exact Hnd|].
  by apply fmap_sublist, sublist_filter.
Qed.

Lemma elem_of_fst_unique {A B} (l : list (A * B)) x y :
  NoDup l.*1 → x ∈ l → y ∈ l → x.1 = y.1 → x = y.
Proof.
  induction l as [|z l IH]; csimpl; intros Hnd Hx Hy Heq.
  - by apply elem_of_nil in Hx.
  - apply NoDup_cons in Hnd as [Hz Hnd].
    apply elem_of_cons in Hx as [->|Hx], Hy as [->|Hy]; [done| | |by apply IH].
    + exfalso. apply Hz. rewrite Heq. by apply list_elem_of_fmap_2.
    + exfalso. apply Hz. rewrite <-Heq. by apply list_elem_of_fmap_2.
Qed.

Section GroupStructure.
Context `{EA : EntryApi}.

Lemma group_entries_refs entries idby k xs r :
  (k, xs) ∈ group_entries entries idby → r ∈ xs →
  r ∈ refs entries ∧ group_key idby r.2 = Some k.
Proof.
  intros ->%group_entries_elem_of. rewrite list_elem_of_filter. tauto.
Qed.

(** No entry occurs twice in a group. *)
Lemma group_entries_NoDup entries idby k xs :
  (k, xs) ∈ group_entries entries idby → NoDup xs.*1.
Proof.
  intros ->%group_entries_elem_of. apply NoDup_fst_filter, NoDup_refs_fst.
Qed.

(** No entry occurs in two groups. *)
Lemma group_entries_disjoint entries idby k xs k' xs' i :
  (k, xs) ∈ group_entries entries idby →
  (k', xs') ∈ group_entries entries idby →
  i ∈ xs.*1 → i ∈ xs'.*1 → k = k'.
Proof.
  intros Hg Hg' (r & -> & Hr)%list_elem_of_fmap (r' & Heq & Hr')%list_elem_of_fmap.
  destruct (group_entries_refs _ _ _ _ _ Hg Hr) as [Hin Hk].
  destruct (group_entries_refs _ _ _ _ _ Hg' Hr') as [Hin' Hk'].
  assert (r = r') as <-
    by (eapply elem_of_fst_unique; [apply NoDup_refs_fst|done..]).
  congruence.
Qed.

(** Every entry with a key occurs in the group of that key. *)
Lemma group_entries_complete entries idby i e k :
  entries !! i = Some e → group_key idby e = Some k →
  ∃ xs, (k, xs) ∈ group_entries entries idby ∧ (i, e) ∈ xs.
Proof.
  intros Hl Hk. exists (members k (group_entries entries idby)). split.
  - apply elem_of_members, group_entries_key. exists (i, e).
    split; [by apply elem_of_refs|done].
  - rewrite members_group_entries. apply list_elem_of_filter.
    split; [done|by apply elem_of_refs].
Qed.
End GroupStructure.

(** ** The stable sort *)

Lemma insert_desc_Permutation x l : insert_desc x l ≡ₚ x :: l.
Proof.
  induction l as [|y l IH]; simpl; [done|].
  destruct (rquality y <=? rquality x)%Z; [done|].
  rewrite IH. apply Permutation_swap.
Qed.

Lemma sort_desc_Permutation l : sort_desc l ≡ₚ l.
Proof.
  induction l as [|x l IH]; simpl; [done|].
  by rewrite insert_desc_Permutation, IH.
Qed.

Lemma insert_desc_sorted x l :
  StronglySorted (λ a b, (rquality b ≤ rquality a)%Z) l →
  StronglySorted (λ a b, (rquality b ≤ rquality a)%Z) (insert_desc x l).
Proof.
  induction l as [|y l IH]; simpl; intros Hs.
  - repeat constructor.
  - destruct (Z.leb_spec (rquality y) (rquality x)) as [Hle|Hlt].
    + apply StronglySorted_cons in Hs as Hs'. destruct Hs' as [Hall _].
      constructor; [done|]. constructor; [done|].
      eapply Forall_impl; [exact Hall|]. simpl. lia.
    + apply StronglySorted_cons in Hs as [Hall Hs]. constructor; [by apply IH|].
      rewrite insert_desc_Permutation. constructor; [lia|done].
Qed.

(** The sorted list is in descending order of quality. *)
Lemma sort_desc_sorted l :
  StronglySorted (λ a b, (rquality b ≤ rquality a)%Z) (sort_desc l).
Proof.
  induction l as [|x l IH]; simpl; [constructor|by apply insert_desc_sorted].
Qed.

Lemma insert_desc_filter q x l :
  filter (λ r, rquality r = q) (insert_desc x l) =
  filter (λ r, rquality r = q) (x :: l).
Proof.
  induction l as [|y l IH]; simpl; [done|].
  destruct (Z.leb_spec (rquality y) (rquality x)) as [Hle|Hlt]; [done|].
  rewrite (filter_cons _ y), IH, !(filter_cons _ x), (filter_cons _ y).
  destruct (decide (rquality y = q)), (decide (rquality x = q)); try done. lia.
Qed.

(** The sort is stable: the entries of any one quality keep their order. *)
Lemma sort_desc_stable q l :
  filter (λ r, rquality r = q) (sort_desc l) = filter (λ r, rquality r = q) l.
Proof.
  induction l as [|x l IH]; simpl; [done|].
  by rewrite insert_desc_filter, !(filter_cons _ x), IH.
Qed.

Lemma sort_desc_best l best rest :
  sort_desc l = best :: rest → ∀ x, x ∈ l → (rquality x ≤ rquality best)%Z.
Proof.
  intros Heq x Hx. pose proof (sort_desc_sorted l) as Hs. rewrite Heq in Hs.
  apply StronglySorted_cons in Hs as [Hall _].
  rewrite <-sort_desc_Permutation, Heq in Hx.
  apply elem_of_cons in Hx as [->|Hx]; [lia|].
  by apply (proj1 (Forall_forall _ _) Hall).
Qed.

Lemma sort_desc_NoDup l : NoDup l.*1 → NoDup (sort_desc l).*1.
Proof. by rewrite sort_desc_Permutation. Qed.

Lemma sort_desc_nil l : sort_desc l = [] → l = [].
Proof.
  intros Heq. apply Permutation_nil_r. by rewrite <-Heq, sort_desc_Permutation.
Qed.

(** ** Runs as lists of calls *)

Lemma calls_on_app i cs cs' : calls_on i (cs ++ cs') = calls_on i cs ++ calls_on i cs'.
Proof. apply filter_app. Qed.

Lemma calls_on_none i cs :
  (∀ c, c ∈ cs → call_entry c ≠ i) → calls_on i cs = [].
Proof.
  intros Hne. induction cs as [|c cs IH]; [done|].
  unfold calls_on. rewrite filter_cons_False.
  - apply IH. intros c' Hc'. apply Hne. by apply elem_of_cons; right.
  - apply Hne. apply elem_of_cons; by left.
Qed.

Lemma calls_on_all i cs :
  (∀ c, c ∈ cs → call_entry c = i) → calls_on i cs = cs.
Proof.
  intros Heq. induction cs as [|c cs IH]; [done|].
  unfold calls_on. rewrite filter_cons_True.
  - f_equal. apply IH. intros c' Hc'. apply Heq. by apply elem_of_cons; right.
  - apply Heq. apply elem_of_cons; by left.
Qed.

Lemma elem_of_calls_on i c cs : c ∈ calls_on i cs ↔ call_entry c = i ∧ c ∈ cs.
Proof. unfold calls_on. by rewrite list_elem_of_filter. Qed.

Section RunFacts.
Context `{EA : EntryApi} `{QA : QualityApi}.

Lemma replay_app cs cs' sts : replay (cs ++ cs') sts = replay cs' (replay cs sts).
Proof. apply foldl_app. Qed.

Lemma run_calls_nil r : run_calls [] r = r.
Proof. destruct r. unfold run_calls; simpl. by rewrite app_nil_r. Qed.

Lemma run_calls_app cs cs' r :
  run_calls (cs ++ cs') r = run_calls cs' (run_calls cs r).
Proof. unfold run_calls; simpl. by rewrite replay_app, app_assoc. Qed.

Lemma do_action_run_calls a i msg r :
  do_action a i msg r = run_calls [mkCall i a msg] r.
Proof. done. Qed.

(** The state of an entry after a run is its state before, taken through
    the calls made on it. *)
Lemma replay_lookup cs sts j :
  replay cs sts !! j = apply_calls (calls_on j cs) <$> sts !! j.
Proof.
  revert sts. induction cs as [|c cs IH]; intros sts; simpl.
  - by destruct (sts !! j).
  - unfold replay in *. simpl. rewrite IH. unfold calls_on. rewrite filter_cons.
    destruct (decide (call_entry c = j)) as [<-|Hne].
    + rewrite list_lookup_alter_eq. by destruct (sts !! call_entry c).
    + by rewrite list_lookup_alter_ne.
Qed.

Lemma replay_lookup_other cs sts j :
  (∀ c, c ∈ cs → call_entry c ≠ j) → replay cs sts !! j = sts !! j.
Proof.
  intros Hne. rewrite replay_lookup, calls_on_none by done.
  by destruct (sts !! j).
Qed.

Lemma length_replay cs sts : length (replay cs sts) = length sts.
Proof.
  revert sts. induction cs as [|c cs IH]; intros sts; [done|].
  unfold replay in *. simpl. by rewrite IH, length_alter.
Qed.

Lemma is_accepted_run_calls_other cs r j :
  (∀ c, c ∈ cs → call_entry c ≠ j) →
  is_accepted j (run_calls cs r) = is_accepted j r.
Proof.
  intros Hne. unfold is_accepted, run_calls; simpl.
  by rewrite replay_lookup_other.
Qed.

Lemma step_calls_entry o ex flag best entry c :
  c ∈ step_calls o ex flag best entry → call_entry c = entry.1.
Proof.
  unfold step_calls. destruct (entry_actions o); [|by intros ?%elem_of_nil].
  intros Hc.
  destruct (rquality entry <? up_quality ex)%Z,
    (flag && (rquality best >? rquality entry)%Z);
    simpl in Hc; by elem_cases Hc.
Qed.

Lemma step_calls_action o ex flag best entry c :
  c ∈ step_calls o ex flag best entry → entry_actions o = Some (call_action c).
Proof.
  unfold step_calls. destruct (entry_actions o); [|by intros ?%elem_of_nil].
  intros Hc.
  destruct (rquality entry <? up_quality ex)%Z,
    (flag && (rquality best >? rquality entry)%Z);
    simpl in Hc; by elem_cases Hc.
Qed.

(** One iteration of the lower-quality loop makes the calls of
    [step_calls]; the flag is never set, so its branch adds none. *)
Lemma lower_step_calls o ex best r entry :
  (entry.1 = best.1 → rquality entry = rquality best) →
  lower_step o ex best false r entry =
  run_calls (step_calls o ex (is_accepted best.1 r) best entry) r.
Proof.
  intros Hbest. unfold lower_step, step_calls.
  destruct (entry_actions o) as [action|]; [|by rewrite run_calls_nil].
  rewrite andb_false_r.
  assert (∀ msg, is_accepted best.1 (do_action action entry.1 msg r)
                   && (rquality best >? rquality entry)%Z
                 = is_accepted best.1 r && (rquality best >? rquality entry)%Z)
    as Hflag.
  { intros msg. destruct (decide (entry.1 = best.1)) as [Heq|Hne].
    - rewrite (Hbest Heq), Z.gtb_ltb, Z.ltb_irrefl. by rewrite !andb_false_r.
    - f_equal. rewrite do_action_run_calls. apply is_accepted_run_calls_other.
      by intros c ->%list_elem_of_singleton. }
  destruct (rquality entry <? up_quality ex)%Z.
  - rewrite Hflag.
    destruct (is_accepted best.1 r && (rquality best >? rquality entry)%Z); simpl.
    + by rewrite !do_action_run_calls, <-run_calls_app.
    + by rewrite do_action_run_calls.
  - destruct (is_accepted best.1 r && (rquality best >? rquality entry)%Z); simpl.
    + by rewrite do_action_run_calls.
    + by rewrite run_calls_nil.
Qed.

Lemma lower_loop_calls o ex best l r :
  (∀ e, e ∈ l → e.1 ≠ best.1) →
  foldl (lower_step o ex best false) r l =
  run_calls (l ≫= step_calls o ex (is_accepted best.1 r) best) r.
Proof.
  revert r. induction l as [|e l IH]; intros r Hne; csimpl.
  - by rewrite run_calls_nil.
  - rewrite lower_step_calls, IH, run_calls_app.
    + rewrite is_accepted_run_calls_other; [done|].
      intros c ->%step_calls_entry. apply Hne, elem_of_cons; by left.
    + intros e' He'. apply Hne, elem_of_cons; by right.
    + intros Heq. exfalso. eapply Hne; [|exact Heq]. apply elem_of_cons; by left.
Qed.
End RunFacts.

Section FilterAsCalls.
Context `{EA : EntryApi} `{QA : QualityApi}.

Lemma within_target_sublist config entries :
  within_target config entries `sublist_of` entries.
Proof.
  unfold within_target. destruct (target_set config); [|done].
  by apply sublist_filter.
Qed.

Lemma within_target_NoDup config entries :
  NoDup entries.*1 → NoDup (within_target config entries).*1.
Proof.
  intros Hnd. eapply sublist_NoDup; [exact Hnd|].
  apply fmap_sublist, within_target_sublist.
Qed.

Lemma elem_of_within_target config entries e :
  e ∈ within_target config entries → e ∈ entries.
Proof. intros He. eapply elem_of_sublist; [exact He|apply within_target_sublist]. Qed.

(** The entries the decision is taken on: those within the target, best
    quality first. *)
Lemma elem_of_candidates config entries e :
  e ∈ sort_desc (within_target config entries) → e ∈ entries.
Proof. rewrite sort_desc_Permutation. apply elem_of_within_target. Qed.

Lemma candidates_NoDup config entries :
  NoDup entries.*1 → NoDup (sort_desc (within_target config entries)).*1.
Proof. intros Hnd. by apply sort_desc_NoDup, within_target_NoDup. Qed.

(** The body of the loop over the groups makes the calls of
    [group_calls]. *)
Lemma filter_group_calls config existing entries r :
  NoDup entries.*1 →
  filter_group config existing entries r =
  run_calls (group_calls config existing entries (states r)) r.
Proof.
  intros Hnd. unfold filter_group, group_calls.
  destruct existing as [ex|]; [|destruct entries; by rewrite run_calls_nil].
  destruct (at_target config ex); [destruct entries; by rewrite run_calls_nil|].
  destruct entries as [|e0 entries0] eqn:Hentries.
  { assert (within_target config [] = []) as ->.
    { unfold within_target. by destruct (target_set config). }
    simpl. by rewrite run_calls_nil. }
  rewrite <-Hentries in *. clear Hentries e0 entries0.
  pose proof (candidates_NoDup config entries Hnd) as Hsnd.
  destruct (sort_desc (within_target config entries)) as [|best rest] eqn:Hsort.
  { apply sort_desc_nil in Hsort. rewrite Hsort. simpl. by rewrite run_calls_nil. }
  assert (within_target config entries ≠ []) as Hne.
  { intros Heq. by rewrite Heq in Hsort. }
  rewrite bool_decide_eq_false_2
    by (destruct (within_target config entries); [done|simpl; lia]).
  simpl lookup. cbv beta iota.
  rewrite fmap_cons in Hsnd. apply NoDup_cons in Hsnd as [Hbest Hrest].
  set (first := if (rquality best >? up_quality ex)%Z
                then [mkCall best.1 Accept msg_upgraded] else []).
  set (own := step_calls (on_lower config) ex false best best).
  assert ((if (rquality best >? up_quality ex)%Z
           then do_action Accept best.1 msg_upgraded r else r) = run_calls first r)
    as ->.
  { unfold first. destruct (rquality best >? up_quality ex)%Z;
      [done|by rewrite run_calls_nil]. }
  destruct (decide (on_lower config = lower_skip)) as [Hskip|Hskip].
  - rewrite bool_decide_eq_false_2 by (by intros ?).
    unfold own, step_calls. rewrite Hskip. simpl.
    assert (rest ≫= (λ _ : nat * Entry, @nil Call) = []) as ->
      by (clear; induction rest; by csimpl).
    by rewrite app_nil_r.
  - rewrite bool_decide_eq_true_2 by done. simpl foldl.
    rewrite lower_step_calls by done.
    assert (step_calls (on_lower config) ex (is_accepted best.1 (run_calls first r))
              best best = own) as ->.
    { unfold own, step_calls. destruct (entry_actions (on_lower config)); [|done].
      by rewrite Z.gtb_ltb, Z.ltb_irrefl, !andb_false_r. }
    rewrite lower_loop_calls.
    + by rewrite <-!run_calls_app.
    + intros e He Heq. apply Hbest. rewrite <-Heq. by apply list_elem_of_fmap_2.
Qed.

Lemma group_calls_entry config existing entries sts c :
  c ∈ group_calls config existing entries sts → call_entry c ∈ entries.*1.
Proof.
  unfold group_calls. destruct existing as [ex|]; [|by intros ?%elem_of_nil].
  destruct (at_target config ex); [by intros ?%elem_of_nil|].
  destruct (sort_desc (within_target config entries)) as [|best rest] eqn:Hsort;
    [by intros ?%elem_of_nil|].
  assert (∀ e, e ∈ best :: rest → e.1 ∈ entries.*1) as Hin.
  { intros e He. apply list_elem_of_fmap_2, (elem_of_candidates config).
    by rewrite Hsort. }
  rewrite !elem_of_app. intros [Hc|[Hc|Hc]].
  - destruct (rquality best >? up_quality ex)%Z; elem_cases Hc.
    apply Hin, elem_of_cons; by left.
  - apply step_calls_entry in Hc as ->. apply Hin, elem_of_cons; by left.
  - apply list_elem_of_bind in Hc as (e & Hc & He).
    apply step_calls_entry in Hc as ->. apply Hin, elem_of_cons; by right.
Qed.

(** The calls of a group depend on the states of its own entries only. *)
Lemma group_calls_ext config existing entries sts sts' :
  (∀ i, i ∈ entries.*1 → sts !! i = sts' !! i) →
  group_calls config existing entries sts = group_calls config existing entries sts'.
Proof.
  intros Hagree. unfold group_calls. destruct existing as [ex|]; [|done].
  destruct (at_target config ex); [done|].
  destruct (sort_desc (within_target config entries)) as [|best rest] eqn:Hsort;
    [done|].
  rewrite !replay_lookup, Hagree; [done|].
  apply list_elem_of_fmap_2, (elem_of_candidates config).
  rewrite Hsort. apply elem_of_cons; by left.
Qed.

Lemma prefetch_lookup (session : gmap string EntryUpgrade) keys k :
  k ∈ keys → prefetch session keys !! k = session !! k.
Proof.
  intros Hk. unfold prefetch. apply option_eq. intros x.
  rewrite map_lookup_filter_Some. simpl. tauto.
Qed.

Lemma filter_fold_calls config (f : string → option EntryUpgrade)
    (G : list (string * list (nat * Entry))) sts r :
  NoDup G.*1 →
  (∀ g, g ∈ G → NoDup g.2.*1) →
  (∀ g g' i, g ∈ G → g' ∈ G → i ∈ g.2.*1 → i ∈ g'.2.*1 → g.1 = g'.1) →
  (∀ g i, g ∈ G → i ∈ g.2.*1 → states r !! i = sts !! i) →
  foldl (λ r g, filter_group config (f g.1) g.2 r) r G =
  run_calls (G ≫= λ g, group_calls config (f g.1) g.2 sts) r.
Proof.
  revert r. induction G as [|g G IH]; intros r Hkeys Hnd Hdisj Hagree; csimpl.
  - by rewrite run_calls_nil.
  - apply NoDup_cons in Hkeys as [Hg Hkeys].
    rewrite filter_group_calls by (apply Hnd, elem_of_cons; by left).
    rewrite (group_calls_ext _ _ _ (states r) sts)
      by (intros i Hi; eapply Hagree; [apply elem_of_cons; by left|done]).
    rewrite run_calls_app. apply IH; [done| | |].
    + intros g' Hg'. apply Hnd, elem_of_cons; by right.
    + intros g1 g2 i Hg1 Hg2. apply Hdisj; apply elem_of_cons; by right.
    + intros g' i Hg' Hi. simpl. rewrite replay_lookup_other.
      * eapply Hagree; [apply elem_of_cons; by right|done].
      * intros c Hc%group_calls_entry <-. apply Hg.
        rewrite (Hdisj g g' (call_entry c)); [by apply list_elem_of_fmap_2| | |done..].
        -- apply elem_of_cons; by left.
        -- apply elem_of_cons; by right.
Qed.

Lemma bind_ext_elem {A B} (f g : A → list B) (l : list A) :
  (∀ x, x ∈ l → f x = g x) → l ≫= f = l ≫= g.
Proof.
  induction l as [|x l IH]; intros Heq; csimpl; [done|].
  rewrite Heq, IH; [done| |apply elem_of_cons; by left].
  intros y Hy. apply Heq, elem_of_cons; by right.
Qed.

(** The filter phase makes the calls of [filter_calls], in that order, and
    leaves every entry in the state those calls give it. *)
Theorem on_task_filter_calls config session entries sts :
  on_task_filter config session entries sts =
  run_calls (filter_calls config session entries sts) (mkRun sts []).
Proof.
  unfold on_task_filter, filter_calls. destruct (truthy config); simpl; [|done].
  set (cfg := prepare_config config).
  set (G := group_entries entries (identified_by cfg)).
  rewrite (filter_fold_calls cfg (λ k, prefetch session G.*1 !! k) G sts).
  - f_equal. apply bind_ext_elem. intros g Hg.
    rewrite prefetch_lookup; [done|]. by apply list_elem_of_fmap_2.
  - apply NoDup_keys_group_entries.
  - intros [k xs] Hg. by eapply group_entries_NoDup.
  - intros [k xs] [k' xs'] i Hg Hg'. by eapply group_entries_disjoint.
  - done.
Qed.
End FilterAsCalls.

(** ** The calls made on one entry *)

Section CallsOnEntry.
Context `{EA : EntryApi} `{QA : QualityApi}.

Lemma trace_on_task_filter config session entries sts :
  trace (on_task_filter config session entries sts) =
  filter_calls config session entries sts.
Proof. by rewrite on_task_filter_calls. Qed.

Lemma states_on_task_filter config session entries sts :
  states (on_task_filter config session entries sts) =
  replay (filter_calls config session entries sts) sts.
Proof. by rewrite on_task_filter_calls. Qed.

(** Only the calls of its own group reach an entry. *)
Lemma calls_on_groups (f : string * list (nat * Entry) → list Call)
    (G : list (string * list (nat * Entry))) i :
  NoDup G.*1 →
  (∀ g g' j, g ∈ G → g' ∈ G → j ∈ g.2.*1 → j ∈ g'.2.*1 → g.1 = g'.1) →
  (∀ g c, g ∈ G → c ∈ f g → call_entry c ∈ g.2.*1) →
  (calls_on i (G ≫= f) = [] ∧ ∀ g, g ∈ G → i ∉ g.2.*1)
  ∨ ∃ g, g ∈ G ∧ i ∈ g.2.*1 ∧ calls_on i (G ≫= f) = calls_on i (f g).
Proof.
  induction G as [|g0 G IH]; intros Hkeys Hdisj Hentry; csimpl.
  - left. split; [done|]. by intros g ?%elem_of_nil.
  - rewrite calls_on_app. apply NoDup_cons in Hkeys as [Hg0 Hkeys].
    destruct (decide (i ∈ g0.2.*1)) as [Hi|Hi].
    + right. exists g0. split_and!; [apply elem_of_cons; by left|done|].
      rewrite (calls_on_none i (G ≫= f)); [by rewrite app_nil_r|].
      intros c (g & Hc & Hg)%list_elem_of_bind <-. apply Hg0.
      rewrite (Hdisj g0 g (call_entry c)); [by apply list_elem_of_fmap_2| | |done|].
      * apply elem_of_cons; by left.
      * apply elem_of_cons; by right.
      * apply Hentry; [apply elem_of_cons; by right|done].
    + rewrite (calls_on_none i (f g0)).
      2:{ intros c Hc <-. apply Hi, Hentry; [apply elem_of_cons; by left|done]. }
      simpl. destruct IH as [[Hnil Hnone]|(g & Hg & Hig & Heq)]; [done| | | |].
      * intros g g' j Hg Hg'. apply Hdisj; apply elem_of_cons; by right.
      * intros g c Hg. apply Hentry, elem_of_cons; by right.
      * left. split; [done|]. intros g [->|Hg]%elem_of_cons; [done|by apply Hnone].
      * right. exists g. split_and!; [apply elem_of_cons; by right|done..].
Qed.

(** In a filter phase an entry is called on by its own group, if it has
    one, and by no other. *)
Lemma calls_on_filter_calls config session entries sts i :
  let cfg := prepare_config config in
  let G := group_entries entries (identified_by cfg) in
  (calls_on i (filter_calls config session entries sts) = []
   ∧ (truthy config = false ∨ ∀ g, g ∈ G → i ∉ g.2.*1))
  ∨ truthy config = true ∧ ∃ g, g ∈ G ∧ i ∈ g.2.*1 ∧
      calls_on i (filter_calls config session entries sts) =
      calls_on i (group_calls cfg (session !! g.1) g.2 sts).
Proof.
  intros cfg G. unfold filter_calls. destruct (truthy config); [|left; by eauto].
  fold cfg G.
  destruct (calls_on_groups (λ g, group_calls cfg (session !! g.1) g.2 sts) G i)
    as [[Hnil Hnone]|?]; [| | |left; by eauto|right; by eauto].
  - apply NoDup_keys_group_entries.
  - intros [k xs] [k' xs'] j Hg Hg'. by eapply group_entries_disjoint.
  - intros g c _. apply group_calls_entry.
Qed.

Lemma calls_on_group_unique config session entries sts k xs i :
  truthy config = true →
  (k, xs) ∈ group_entries entries (identified_by (prepare_config config)) →
  i ∈ xs.*1 →
  calls_on i (filter_calls config session entries sts) =
  calls_on i (group_calls (prepare_config config) (session !! k) xs sts).
Proof.
  intros Ht Hg Hi.
  destruct (calls_on_filter_calls config session entries sts i)
    as [[_ [Hf|Hnone]]|(_ & [k' xs'] & Hg' & Hi' & ->)].
  - congruence.
  - by destruct (Hnone _ Hg).
  - simpl in *.
    assert (k = k') as <- by by eapply group_entries_disjoint.
    assert (xs = xs') as <-; [|done].
    rewrite (group_entries_elem_of _ _ _ _ Hg).
    by rewrite (group_entries_elem_of _ _ _ _ Hg').
Qed.

(** The calls one iteration makes: none, one, or the two of the
    conditions that hold, with the configured action. *)
Lemma step_calls_cases o ex flag best e :
  step_calls o ex flag best e = []
  ∨ ∃ a, entry_actions o = Some a ∧
      (step_calls o ex flag best e = [mkCall e.1 a (msg_lower o)]
       ∨ step_calls o ex flag best e = [mkCall e.1 a (msg_entries o)]
       ∨ step_calls o ex flag best e =
           [mkCall e.1 a (msg_lower o); mkCall e.1 a (msg_entries o)]).
Proof.
  unfold step_calls. destruct (entry_actions o) as [a|]; [|by left].
  destruct (rquality e <? up_quality ex)%Z,
    (flag && (rquality best >? rquality e)%Z); simpl; eauto 6.
Qed.

Lemma calls_on_steps o ex flag best l i :
  NoDup l.*1 →
  calls_on i (l ≫= step_calls o ex flag best) = []
  ∨ ∃ e, e ∈ l ∧ e.1 = i ∧
      calls_on i (l ≫= step_calls o ex flag best) = step_calls o ex flag best e.
Proof.
  induction l as [|e l IH]; csimpl; intros Hnd; [by left|].
  apply NoDup_cons in Hnd as [He Hnd]. rewrite calls_on_app.
  destruct (decide (e.1 = i)) as [<-|Hne].
  - right. exists e. split_and!; [apply elem_of_cons; by left|done|].
    rewrite calls_on_all by (intros c; apply step_calls_entry).
    rewrite calls_on_none; [by rewrite app_nil_r|].
    intros c (e' & Hc & He')%list_elem_of_bind Heq. apply He.
    apply step_calls_entry in Hc. rewrite <-Heq, Hc. by apply list_elem_of_fmap_2.
  - rewrite (calls_on_none i (step_calls _ _ _ _ e))
      by (by intros c ->%step_calls_entry).
    destruct (IH Hnd) as [?|(e' & He' & Heq & Hcalls)]; [by left|].
    right. exists e'. split_and!; [apply elem_of_cons; by right|done..].
Qed.
End CallsOnEntry.

Section GroupShape.
Context `{EA : EntryApi} `{QA : QualityApi}.

Lemma step_calls_shape o ex flag best e :
  entry_calls o e.1 (step_calls o ex flag best e).
Proof.
  destruct (step_calls_cases o ex flag best e) as [->|(a & Ha & [->|[->| ->]])];
    eauto using entry_calls.
Qed.

(** The best entry of a group is called on by the upgrade test and by its
    own iteration of the loop, never by a later iteration. *)
Lemma group_calls_on_best config ex entries sts best rest :
  NoDup entries.*1 →
  at_target config ex = false →
  sort_desc (within_target config entries) = best :: rest →
  calls_on best.1 (group_calls config (Some ex) entries sts) =
  (if (rquality best >? up_quality ex)%Z
   then [mkCall best.1 Accept msg_upgraded] else [])
  ++ step_calls (on_lower config) ex false best best.
Proof.
  intros Hnd Hat Hsort. unfold group_calls. rewrite Hat, Hsort.
  pose proof (candidates_NoDup config entries Hnd) as Hsnd.
  rewrite Hsort, fmap_cons in Hsnd. apply NoDup_cons in Hsnd as [Hbest _].
  rewrite !calls_on_app.
  assert (∀ c, c ∈ (if (rquality best >? up_quality ex)%Z
                    then [mkCall best.1 Accept msg_upgraded] else []) →
               call_entry c = best.1) as Hfirst.
  { intros c Hc. destruct (rquality best >? up_quality ex)%Z; by elem_cases Hc. }
  rewrite (calls_on_all _ _ Hfirst).
  rewrite (calls_on_all best.1 (step_calls _ _ _ _ best))
    by (intros c; apply step_calls_entry).
  rewrite calls_on_none; [by rewrite app_nil_r|].
  intros c (e & Hc & He)%list_elem_of_bind Heq.
  apply Hbest. apply step_calls_entry in Hc. rewrite <-Heq, Hc.
  by apply list_elem_of_fmap_2.
Qed.

(** Any other entry of the group is called on by its own iteration only. *)
Lemma group_calls_on_other config ex entries sts best rest i :
  NoDup entries.*1 →
  at_target config ex = false →
  sort_desc (within_target config entries) = best :: rest →
  i ≠ best.1 →
  calls_on i (group_calls config (Some ex) entries sts) = []
  ∨ ∃ e flag, e ∈ rest ∧ e.1 = i ∧
      calls_on i (group_calls config (Some ex) entries sts) =
      step_calls (on_lower config) ex flag best e.
Proof.
  intros Hnd Hat Hsort Hi. unfold group_calls. rewrite Hat, Hsort.
  pose proof (candidates_NoDup config entries Hnd) as Hsnd.
  rewrite Hsort, fmap_cons in Hsnd. apply NoDup_cons in Hsnd as [_ Hrest].
  rewrite !calls_on_app.
  assert (∀ c, c ∈ (if (rquality best >? up_quality ex)%Z
                    then [mkCall best.1 Accept msg_upgraded] else []) →
               call_entry c ≠ i) as Hfirst.
  { intros c Hc. destruct (rquality best >? up_quality ex)%Z; by elem_cases Hc. }
  rewrite (calls_on_none _ _ Hfirst).
  rewrite (calls_on_none i (step_calls _ _ _ _ best))
    by (by intros c ->%step_calls_entry).
  simpl.
  match goal with |- context [step_calls _ _ ?f best] => set (flag := f) end.
  destruct (calls_on_steps (on_lower config) ex flag best rest i Hrest)
    as [->|(e & He & Heq & ->)]; [by left|].
  right. by exists e, flag.
Qed.

Lemma group_calls_shape config existing entries sts i :
  NoDup entries.*1 →
  entry_calls (on_lower config) i (calls_on i (group_calls config existing entries sts)).
Proof.
  intros Hnd. destruct existing as [ex|]; [|constructor].
  destruct (at_target config ex) eqn:Hat.
  { unfold group_calls. rewrite Hat. constructor. }
  destruct (sort_desc (within_target config entries)) as [|best rest] eqn:Hsort.
  { unfold group_calls. rewrite Hat, Hsort. constructor. }
  destruct (decide (i = best.1)) as [->|Hi].
  - rewrite (group_calls_on_best _ _ _ _ _ _ Hnd Hat Hsort).
    unfold step_calls. destruct (Z.gtb_spec (rquality best) (up_quality ex)).
    + rewrite (proj2 (Z.ltb_ge _ _)) by lia.
      destruct (entry_actions (on_lower config)); simpl; constructor.
    + simpl. destruct (entry_actions (on_lower config)) as [a|] eqn:Ha;
        [|constructor].
      destruct (rquality best <? up_quality ex)%Z; simpl; by constructor.
  - destruct (group_calls_on_other _ _ _ sts _ _ i Hnd Hat Hsort Hi)
      as [->|(e & flag & He & <- & ->)]; [constructor|].
    apply step_calls_shape.
Qed.

(** In a filter phase the calls made on any one entry have one of the
    shapes of [entry_calls]. *)
Lemma filter_calls_shape config session entries sts i :
  entry_calls (on_lower (prepare_config config)) i
    (calls_on i (filter_calls config session entries sts)).
Proof.
  destruct (calls_on_filter_calls config session entries sts i)
    as [[-> _]|(_ & [k xs] & Hg & Hi & ->)]; [constructor|].
  apply group_calls_shape. by eapply group_entries_NoDup.
Qed.
End GroupShape.

(** ** The filter phase *)

Section FilterPhase.
Context `{EA : EntryApi} `{QA : QualityApi}.

Lemma entry_calls_elem_of o i cs c :
  entry_calls o i cs → c ∈ cs →
  c = mkCall i Accept msg_upgraded
  ∨ ∃ a, entry_actions o = Some a
         ∧ (c = mkCall i a (msg_lower o) ∨ c = mkCall i a (msg_entries o)).
Proof.
  intros Hs Hc. destruct Hs; elem_cases Hc; eauto.
Qed.

(** C1 (as amended): in every filter-phase run the calls made on an item
    are none, the single [accept('upgraded quality')], or the configured
    [on_lower] action called once for each of the two conditions of the
    lower-quality loop that holds for the item; so every item receives at
    most two disposition calls, and all of them apply the same action. *)
Theorem filter_calls_per_item config session entries sts i :
  let cs := calls_on i (trace (on_task_filter config session entries sts)) in
  entry_calls (on_lower (prepare_config config)) i cs
  ∧ length cs ≤ 2
  ∧ ∃ a, Forall (λ c, call_action c = a) cs.
Proof.
  simpl. rewrite trace_on_task_filter.
  pose proof (filter_calls_shape config session entries sts i) as Hshape.
  split; [done|].
  destruct Hshape; (split; [simpl; lia|]).
  - exists Accept. constructor.
  - exists Accept. by repeat constructor.
  - exists a. by repeat constructor.
  - exists a. by repeat constructor.
  - exists a. by repeat constructor.
Qed.

(** C5: with a target configured, when the record of an identifier already
    exceeds the target quality or satisfies the target requirement, no call
    is made on any item of that identifier's group and the items keep their
    state. *)
Theorem target_short_circuit config session entries sts t k xs ex i :
  target_set (prepare_config config) = Some t →
  (k, xs) ∈ group_entries entries (identified_by (prepare_config config)) →
  session !! k = Some ex →
  (Quality_of t < up_quality ex)%Z ∨ allows t (up_quality ex) = true →
  i ∈ xs.*1 →
  calls_on i (trace (on_task_filter config session entries sts)) = []
  ∧ states (on_task_filter config session entries sts) !! i = sts !! i.
Proof.
  intros Ht Hg Hex Hreached Hi.
  assert (calls_on i (filter_calls config session entries sts) = []) as Hnone.
  { destruct (truthy config) eqn:Htruthy.
    - rewrite (calls_on_group_unique _ _ _ _ k xs) by done.
      unfold group_calls, at_target. rewrite Hex, Ht.
      assert ((up_quality ex >? Quality_of t)%Z || allows t (up_quality ex) = true)
        as ->; [|done].
      destruct Hreached as [Hgt| ->]; [|by rewrite orb_true_r].
      by rewrite (proj2 (Z.gtb_gt _ _)) by lia.
    - unfold filter_calls. by rewrite Htruthy. }
  rewrite trace_on_task_filter, states_on_task_filter, replay_lookup, Hnone.
  split; [done|]. by destruct (sts !! i).
Qed.

(** C7: for a group with a record that reaches the sort, the first item of
    the sorted, target-filtered group receives [accept('upgraded quality')]
    if and only if its quality is strictly greater than the stored one; it
    is then the only call made on that item. *)
Theorem upgrade_accepts_best config session entries sts k xs ex best rest :
  truthy config = true →
  (k, xs) ∈ group_entries entries (identified_by (prepare_config config)) →
  session !! k = Some ex →
  at_target (prepare_config config) ex = false →
  sort_desc (within_target (prepare_config config) xs) = best :: rest →
  (mkCall best.1 Accept msg_upgraded ∈ trace (on_task_filter config session entries sts)
   ↔ (up_quality ex < rquality best)%Z)
  ∧ ((up_quality ex < rquality best)%Z →
     states (on_task_filter config session entries sts) !! best.1 =
     entry_action Accept msg_upgraded <$> sts !! best.1).
Proof.
  intros Htruthy Hg Hex Hat Hsort.
  assert (best.1 ∈ xs.*1) as Hbest.
  { apply list_elem_of_fmap_2, (elem_of_candidates (prepare_config config)).
    rewrite Hsort. apply elem_of_cons; by left. }
  pose proof (group_entries_NoDup _ _ _ _ Hg) as Hnd.
  pose proof (calls_on_group_unique config session entries sts k xs best.1
                Htruthy Hg Hbest) as Hcalls.
  rewrite Hex, (group_calls_on_best _ _ _ _ _ _ Hnd Hat Hsort) in Hcalls.
  rewrite trace_on_task_filter, states_on_task_filter, replay_lookup, Hcalls.
  split; [split|].
  - intros Hin.
    assert (mkCall best.1 Accept msg_upgraded
              ∈ calls_on best.1 (filter_calls config session entries sts)) as Hin'
      by by apply elem_of_calls_on.
    rewrite Hcalls in Hin'. apply elem_of_app in Hin' as [Hin'|Hin'].
    + destruct (Z.gtb_spec (rquality best) (up_quality ex)); [lia|].
      by apply elem_of_nil in Hin'.
    + exfalso. unfold step_calls in Hin'.
      destruct (on_lower (prepare_config config)); simpl in Hin';
        destruct (rquality best <? up_quality ex)%Z; simpl in Hin'; by elem_cases Hin'.
  - intros Hlt.
    assert (mkCall best.1 Accept msg_upgraded
              ∈ calls_on best.1 (filter_calls config session entries sts)) as Hin.
    { rewrite Hcalls, (proj2 (Z.gtb_gt _ _)) by lia. apply elem_of_cons; by left. }
    by apply elem_of_calls_on in Hin as [_ ?].
  - intros Hlt. rewrite (proj2 (Z.gtb_gt _ _)) by lia.
    unfold step_calls. rewrite (proj2 (Z.ltb_ge _ _)) by lia.
    by destruct (entry_actions (on_lower (prepare_config config))).
Qed.

(** C4 (as amended): when the quality of an item of the target-filtered
    group is strictly below the stored quality, and [on_lower] is not
    [skip], the configured action is applied to the item with the reason
    "on_lower <action> because lower then existing quality". *)
Theorem lower_than_existing_reason config session entries sts k xs ex a e :
  truthy config = true →
  (k, xs) ∈ group_entries entries (identified_by (prepare_config config)) →
  session !! k = Some ex →
  at_target (prepare_config config) ex = false →
  entry_actions (on_lower (prepare_config config)) = Some a →
  e ∈ within_target (prepare_config config) xs →
  (rquality e < up_quality ex)%Z →
  mkCall e.1 a ("on_lower " +:+ on_lower_name (on_lower (prepare_config config))
                  +:+ " because lower then existing quality")
    ∈ trace (on_task_filter config session entries sts).
Proof.
  intros Htruthy Hg Hex Hat Ha He Hlt. rewrite trace_on_task_filter.
  set (cfg := prepare_config config) in *.
  unfold filter_calls. rewrite Htruthy. apply list_elem_of_bind.
  exists (k, xs). split; [|done]. simpl. fold cfg. unfold group_calls.
  rewrite Hex, Hat.
  assert (e ∈ sort_desc (within_target cfg xs)) as Hsorted
    by by rewrite sort_desc_Permutation.
  destruct (sort_desc (within_target cfg xs)) as [|best rest];
    [by apply elem_of_nil in Hsorted|].
  fold (msg_lower (on_lower cfg)).
  assert (∀ flag, mkCall e.1 a (msg_lower (on_lower cfg))
                    ∈ step_calls (on_lower cfg) ex flag best e) as Hstep.
  { intros flag. unfold step_calls. rewrite Ha, (proj2 (Z.ltb_lt _ _)) by lia.
    apply elem_of_cons; by left. }
  rewrite !elem_of_app. right. apply elem_of_cons in Hsorted as [->|Hrest].
  - by left.
  - right. apply list_elem_of_bind. by exists e.
Qed.

Lemma calls_on_steps_elem o ex flag best l e :
  NoDup l.*1 → e ∈ l →
  calls_on e.1 (l ≫= step_calls o ex flag best) = step_calls o ex flag best e.
Proof.
  intros Hnd He.
  destruct (calls_on_steps o ex flag best l e.1 Hnd) as [Hnil|(e' & He' & Heq & ->)].
  - destruct (step_calls o ex flag best e) as [|c cs] eqn:Hstep; [done|].
    assert (c ∈ calls_on e.1 (l ≫= step_calls o ex flag best)) as Hc.
    { apply elem_of_calls_on. split.
      - apply (step_calls_entry o ex flag best e). rewrite Hstep.
        apply elem_of_cons; by left.
      - apply list_elem_of_bind. exists e. split; [|done]. rewrite Hstep.
        apply elem_of_cons; by left. }
    rewrite Hnil in Hc. by apply elem_of_nil in Hc.
  - by rewrite (elem_of_fst_unique l e' e Hnd He' He Heq).
Qed.

(** The calls made on an item that is not the first of its sorted group
    are exactly those of the conditions that hold for it: its quality is
    below the stored one; the first item is accepted and is better. *)
Lemma lower_calls_exact config session entries sts k xs ex best rest e :
  truthy config = true →
  (k, xs) ∈ group_entries entries (identified_by (prepare_config config)) →
  session !! k = Some ex →
  at_target (prepare_config config) ex = false →
  sort_desc (within_target (prepare_config config) xs) = best :: rest →
  e ∈ rest →
  calls_on e.1 (trace (on_task_filter config session entries sts)) =
  step_calls (on_lower (prepare_config config)) ex
    (is_accepted best.1 (on_task_filter config session entries sts)) best e.
Proof.
  intros Htruthy Hg Hex Hat Hsort He. set (cfg := prepare_config config) in *.
  pose proof (group_entries_NoDup _ _ _ _ Hg) as Hnd.
  pose proof (candidates_NoDup cfg xs Hnd) as Hsnd.
  rewrite Hsort, fmap_cons in Hsnd. apply NoDup_cons in Hsnd as [Hbest Hrest].
  assert (e.1 ≠ best.1) as Hne.
  { intros Heq. apply Hbest. rewrite <-Heq. by apply list_elem_of_fmap_2. }
  assert (∀ x, x ∈ best :: rest → x.1 ∈ xs.*1) as Hin.
  { intros x Hx. apply list_elem_of_fmap_2, (elem_of_candidates cfg).
    by rewrite Hsort. }
  unfold is_accepted.
  rewrite trace_on_task_filter, states_on_task_filter, replay_lookup.
  rewrite (calls_on_group_unique _ _ _ _ k xs best.1 Htruthy Hg)
    by (apply Hin, elem_of_cons; by left).
  rewrite (calls_on_group_unique _ _ _ _ k xs e.1 Htruthy Hg)
    by (apply Hin, elem_of_cons; by right).
  fold cfg. rewrite Hex, (group_calls_on_best _ _ _ _ _ _ Hnd Hat Hsort).
  unfold group_calls. rewrite Hat, Hsort. cbv zeta.
  set (cb := (if (rquality best >? up_quality ex)%Z
              then [mkCall best.1 Accept msg_upgraded] else [])
             ++ step_calls (on_lower cfg) ex false best best).
  assert (∀ c, c ∈ cb → call_entry c = best.1) as Hcb.
  { intros c [Hc|Hc]%elem_of_app.
    - destruct (rquality best >? up_quality ex)%Z; by elem_cases Hc.
    - by apply step_calls_entry in Hc. }
  rewrite app_assoc, calls_on_app. fold cb.
  rewrite (calls_on_none e.1 cb) by (intros c Hc; rewrite (Hcb c Hc); congruence).
  rewrite replay_lookup, (calls_on_all best.1 cb Hcb). simpl.
  by apply calls_on_steps_elem.
Qed.

Lemma msg_target_fresh o o' :
  msg_target o ≠ msg_upgraded ∧ msg_target o ≠ msg_lower o'
  ∧ msg_target o ≠ msg_entries o'.
Proof. by destruct o, o'. Qed.

(** The branch guarded by the flag is live code: with the flag set it
    would act on an entry better than the record. *)
Lemma lower_step_target_branch o a ex best r entry :
  entry_actions o = Some a →
  (up_quality ex < rquality entry)%Z →
  mkCall entry.1 a (msg_target o) ∈ trace (lower_step o ex best true r entry).
Proof.
  intros Ha Hgt. unfold lower_step.
  rewrite Ha, (proj2 (Z.gtb_gt _ _)), (proj2 (Z.ltb_ge _ _)) by lia. simpl.
  destruct (_ && _); simpl; rewrite !elem_of_app, !list_elem_of_singleton; auto.
Qed.

(** C9: the flag [target_downloaded] is false when the lower-quality loop
    runs, so no call of a filter phase carries the reason of the branch it
    guards, "on_lower ... because already at target quality". *)
Theorem target_branch_never_fires config session entries sts :
  Forall (λ c, ∀ o, call_reason c ≠ msg_target o)
    (trace (on_task_filter config session entries sts)).
Proof.
  apply Forall_forall. intros c Hc o. rewrite trace_on_task_filter in Hc.
  assert (c ∈ calls_on (call_entry c) (filter_calls config session entries sts))
    as Hc' by by apply elem_of_calls_on.
  pose proof (filter_calls_shape config session entries sts (call_entry c)) as Hs.
  destruct (msg_target_fresh o (on_lower (prepare_config config)))
    as (Hup & Hlow & Hent).
  destruct (entry_calls_elem_of _ _ _ _ Hs Hc') as [->|(a & _ & [->| ->])];
    cbn [call_reason]; congruence.
Qed.
End FilterPhase.

(** ** Running the filter phase again *)

Section Idempotence.
Context `{EA : EntryApi} `{QA : QualityApi}.

(** What is asked of the operations of an entry: repeating an operation, or
    a pair of operations with the same action, changes nothing more. *)
Hypothesis action_twice :
  ∀ a msg s, entry_action a msg (entry_action a msg s) = entry_action a msg s.
Hypothesis action_pair_twice :
  ∀ a msg msg' s,
    entry_action a msg' (entry_action a msg (entry_action a msg' (entry_action a msg s)))
    = entry_action a msg' (entry_action a msg s).

Lemma apply_calls_twice o i cs s :
  entry_calls o i cs → apply_calls cs (apply_calls cs s) = apply_calls cs s.
Proof using action_twice action_pair_twice.
  intros [| |a _|a _|a _]; simpl; auto.
Qed.

Lemma replay_twice_lookup config session entries sts j :
  let cs := filter_calls config session entries sts in
  replay cs (replay cs sts) !! j = replay cs sts !! j.
Proof using action_twice action_pair_twice.
  simpl. rewrite !replay_lookup. destruct (sts !! j) as [s|]; [|done]. simpl.
  f_equal. eapply apply_calls_twice, filter_calls_shape.
Qed.

Lemma group_calls_rerun config session entries sts k xs :
  truthy config = true →
  (k, xs) ∈ group_entries entries (identified_by (prepare_config config)) →
  group_calls (prepare_config config) (session !! k) xs
    (replay (filter_calls config session entries sts) sts)
  = group_calls (prepare_config config) (session !! k) xs sts.
Proof using action_twice action_pair_twice.
  intros Htruthy Hg. set (cfg := prepare_config config) in *.
  pose proof (group_entries_NoDup _ _ _ _ Hg) as Hnd.
  destruct (session !! k) as [ex|] eqn:Hex; [|done].
  destruct (at_target cfg ex) eqn:Hat; [unfold group_calls; by rewrite Hat|].
  destruct (sort_desc (within_target cfg xs)) as [|best rest] eqn:Hsort;
    [unfold group_calls; by rewrite Hat, Hsort|].
  assert (best.1 ∈ xs.*1) as Hbest.
  { apply list_elem_of_fmap_2, (elem_of_candidates cfg).
    rewrite Hsort. apply elem_of_cons; by left. }
  pose proof (calls_on_group_unique config session entries sts k xs best.1
                Htruthy Hg Hbest) as Hcalls.
  fold cfg in Hcalls.
  rewrite Hex, (group_calls_on_best _ _ _ _ _ _ Hnd Hat Hsort) in Hcalls.
  pose proof (group_calls_shape cfg (Some ex) xs sts best.1 Hnd) as Hshape.
  rewrite (group_calls_on_best _ _ _ _ _ _ Hnd Hat Hsort) in Hshape.
  unfold group_calls. rewrite Hat, Hsort. cbv zeta.
  set (cb := (if (rquality best >? up_quality ex)%Z
              then [mkCall best.1 Accept msg_upgraded] else [])
             ++ step_calls (on_lower cfg) ex false best best) in *.
  assert (calls_on best.1 cb = cb) as Hcb.
  { apply calls_on_all. intros c [Hc|Hc]%elem_of_app.
    - destruct (rquality best >? up_quality ex)%Z; by elem_cases Hc.
    - by apply step_calls_entry in Hc. }
  rewrite !replay_lookup, Hcalls, Hcb.
  destruct (sts !! best.1) as [s|]; [|done]. simpl.
  by rewrite (apply_calls_twice _ _ _ _ Hshape).
Qed.

(** C10: when the operations of an entry are idempotent, running the filter
    phase again on the same batch, as the first run left it, and on the
    same store makes the same calls and leaves every item in the state the
    first run gave it. *)
Theorem filter_twice config session entries sts :
  let first := on_task_filter config session entries sts in
  let second := on_task_filter config session entries (states first) in
  trace second = trace first ∧ states second = states first.
Proof using action_twice action_pair_twice.
  simpl. rewrite !trace_on_task_filter, !states_on_task_filter.
  assert (filter_calls config session entries
            (replay (filter_calls config session entries sts) sts)
          = filter_calls config session entries sts) as Hsame.
  { unfold filter_calls at 1 3. destruct (truthy config) eqn:Htruthy; [|done].
    apply bind_ext_elem. intros [k xs] Hg. by apply group_calls_rerun. }
  rewrite Hsame. split; [done|].
  apply list_eq. intros j. apply replay_twice_lookup.
Qed.
End Idempotence.

(** ** The learn phase *)

Section LearnPhase.
Context `{EA : EntryApi}.

(** A group writes the row of its own identifier only. *)
Lemma learn_group_other now (S db : gmap string EntryUpgrade) g k :
  k ≠ g.1 → learn_group now S db g !! k = db !! k.
Proof.
  intros Hne. unfold learn_group. destruct g.2; [done|].
  destruct (sort_desc _ !! 0); [|done].
  destruct (S !! g.1) as [ex|].
  - destruct (up_quality ex >? _)%Z; [done|]. by rewrite lookup_insert_ne.
  - by rewrite lookup_insert_ne.
Qed.

Lemma learn_group_lookup_ext now (S db db' : gmap string EntryUpgrade) g :
  db !! g.1 = db' !! g.1 →
  learn_group now S db g !! g.1 = learn_group now S db' g !! g.1.
Proof.
  intros Heq. unfold learn_group. destruct g.2; [done|].
  destruct (sort_desc _ !! 0); [|done].
  destruct (S !! g.1) as [ex|].
  - destruct (up_quality ex >? _)%Z; [done|]. by rewrite !lookup_insert_eq.
  - by rewrite !lookup_insert_eq.
Qed.

Lemma learn_fold_other now (S db : gmap string EntryUpgrade) G k :
  k ∉ G.*1 → foldl (learn_group now S) db G !! k = db !! k.
Proof.
  revert db. induction G as [|g G IH]; intros db Hk; csimpl in *; [done|].
  apply not_elem_of_cons in Hk as [Hne Hk].
  by rewrite IH, learn_group_other.
Qed.

(** The row of an identifier after the loop is the one its own group
    leaves. *)
Lemma learn_fold_lookup now (S db : gmap string EntryUpgrade) G g :
  NoDup G.*1 → g ∈ G →
  foldl (learn_group now S) db G !! g.1 = learn_group now S db g !! g.1.
Proof.
  revert db. induction G as [|g0 G IH]; intros db Hnd Hg; csimpl in *.
  - by apply elem_of_nil in Hg.
  - apply NoDup_cons in Hnd as [Hg0 Hnd]. apply elem_of_cons in Hg as [->|Hg].
    + by rewrite learn_fold_other.
    + rewrite IH by done. apply learn_group_lookup_ext, learn_group_other.
      intros Heq. apply Hg0. rewrite <-Heq. by apply list_elem_of_fmap_2.
Qed.

(** One group never lowers the stored quality of its identifier. *)
Lemma learn_group_monotone now (S db : gmap string EntryUpgrade) g r :
  S !! g.1 = db !! g.1 → db !! g.1 = Some r →
  ∃ r', learn_group now S db g !! g.1 = Some r'
        ∧ (up_quality r ≤ up_quality r')%Z.
Proof.
  intros HS Hr. unfold learn_group. destruct g.2; [by exists r|].
  destruct (sort_desc _ !! 0) as [best|]; [|by exists r].
  rewrite HS, Hr. destruct (Z.gtb_spec (up_quality r) (rquality best)).
  - by exists r.
  - rewrite lookup_insert_eq. eexists. split; [done|]. simpl. lia.
Qed.

(** The rows after a learn phase, in terms of the groups of
    [task.accepted]. *)
Lemma on_task_learn_lookup config (db : gmap string EntryUpgrade) acc now k :
  let cfg := prepare_config config in
  let G := group_entries acc (identified_by cfg) in
  on_task_learn config db acc now !! k =
  if tracking cfg then
    if decide (k ∈ G.*1)
    then learn_group now (prefetch db G.*1) db (k, members k G) !! k
    else db !! k
  else db !! k.
Proof.
  intros cfg G. unfold on_task_learn. fold cfg. destruct (tracking cfg); [|done].
  simpl. fold G. destruct (decide (k ∈ G.*1)) as [Hk|Hk].
  - apply (learn_fold_lookup now _ db G (k, members k G)).
    + apply NoDup_keys_group_entries.
    + by apply elem_of_members.
  - by apply learn_fold_other.
Qed.

Lemma on_task_learn_monotone config (db : gmap string EntryUpgrade) acc now k r :
  db !! k = Some r →
  ∃ r', on_task_learn config db acc now !! k = Some r'
        ∧ (up_quality r ≤ up_quality r')%Z.
Proof.
  intros Hr. rewrite on_task_learn_lookup.
  destruct (tracking _); [|exists r; split; [done|lia]].
  destruct (decide _) as [Hk|Hk]; [|exists r; split; [done|lia]].
  apply (learn_group_monotone now _ db (k, _) r); [|done].
  by apply prefetch_lookup.
Qed.

(** Under tracking, an accepted entry with an identifier has a record after
    the learn phase. *)
Lemma on_task_learn_records config (db : gmap string EntryUpgrade) acc now i e k :
  tracking (prepare_config config) = true →
  acc !! i = Some e →
  group_key (identified_by (prepare_config config)) e = Some k →
  is_Some (on_task_learn config db acc now !! k).
Proof.
  intros Htrack Hi Hk. rewrite on_task_learn_lookup, Htrack.
  destruct (group_entries_complete acc _ i e k Hi Hk) as (xs & Hg & Hx).
  set (G := group_entries acc _) in *.
  assert (k ∈ G.*1) as Hin by by apply (list_elem_of_fmap_2 fst _ (k, xs)).
  rewrite decide_True by done.
  rewrite (members_elem_of k xs G) by (done || apply NoDup_keys_group_entries).
  unfold learn_group. simpl. destruct xs as [|x xs]; [by apply elem_of_nil in Hx|].
  destruct (sort_desc (x :: xs)) as [|best rest] eqn:Hsort;
    [by apply sort_desc_nil in Hsort|].
  simpl. rewrite prefetch_lookup by done.
  destruct (db !! k) as [ex|] eqn:Hex.
  - destruct (up_quality ex >? rquality best)%Z; [by rewrite Hex|].
    by rewrite lookup_insert_eq.
  - by rewrite lookup_insert_eq.
Qed.

Lemma learn_many_app (db : gmap string EntryUpgrade) runs more :
  learn_many db (runs ++ more) = learn_many (learn_many db runs) more.
Proof. apply foldl_app. Qed.

(** C6: along any sequence of learn-phase invocations the quality stored
    for an identifier never decreases: a record present after some
    invocations is still present after any further ones, with a quality that
    is greater than or equal. *)
Theorem stored_quality_monotone (db : gmap string EntryUpgrade) runs more k r :
  learn_many db runs !! k = Some r →
  ∃ r', learn_many db (runs ++ more) !! k = Some r'
        ∧ (up_quality r ≤ up_quality r')%Z.
Proof.
  rewrite learn_many_app. generalize (learn_many db runs). clear db runs.
  intros db. revert db r. induction more as [|run more IH]; intros db r Hr.
  - exists r. split; [done|lia].
  - destruct (on_task_learn_monotone (run_config run) db (run_accepted run)
                (run_now run) k r Hr) as (r1 & Hr1 & Hle).
    destruct (IH _ _ Hr1) as (r' & Hr' & Hle').
    exists r'. split; [done|lia].
Qed.

(** C3 (as amended): when the record of a group's identifier holds a quality
    strictly greater than the best accepted quality of the group, the learn
    phase leaves the record unchanged; when the two qualities are equal the
    stored quality keeps its value, while the title and the time are
    overwritten with the title of the best entry and the time of the run. *)
Theorem learn_keeps_better_record config (db : gmap string EntryUpgrade)
    acc now k xs r best rest :
  tracking (prepare_config config) = true →
  (k, xs) ∈ group_entries acc (identified_by (prepare_config config)) →
  db !! k = Some r →
  sort_desc xs = best :: rest →
  (rquality best ≤ up_quality r)%Z →
  on_task_learn config db acc now !! k =
  Some (if decide (rquality best < up_quality r)%Z then r
        else mkUpgrade (Some (title best.2)) (up_quality r) (up_proper r) now).
Proof.
  intros Htrack Hg Hr Hsort Hle. rewrite on_task_learn_lookup, Htrack.
  set (G := group_entries acc _) in *.
  assert (k ∈ G.*1) as Hk by by apply (list_elem_of_fmap_2 fst _ (k, xs)).
  rewrite decide_True by done.
  rewrite (members_elem_of k xs G) by (done || apply NoDup_keys_group_entries).
  unfold learn_group. simpl. rewrite Hsort, prefetch_lookup, Hr by done.
  destruct xs; [done|]. simpl.
  destruct (Z.gtb_spec (up_quality r) (rquality best)).
  - by rewrite decide_True by lia.
  - rewrite decide_False, lookup_insert_eq by lia. do 2 f_equal. lia.
Qed.

(** At [False] the learn phase records the accepted entry in the empty
    store. *)
Lemma learn_records_at_false :
  on_task_learn (CBool false) ∅ [item_1080] 7 !! show_id
  = Some (mkUpgrade (Some "Show S01E01 1080p"%string) 1080 None 7).
Proof. by vm_compute. Qed.

End LearnPhase.

(** ** Grouping by identifier *)

Section GroupingClaim.
Context `{EA : EntryApi}.

Lemma group_key_Some idby e k :
  group_key idby e = Some k ↔
  ∃ s, identifier_of idby e = Some s ∧ s ≠ ""%string ∧ k = lower s.
Proof.
  unfold group_key. destruct (identifier_of idby e) as [s|].
  - destruct (decide (s = ""%string)) as [->|Hne].
    + split; [done|]. by intros (s & [= <-] & ? & _).
    + split.
      * intros [= <-]. by exists s.
      * by intros (s' & [= <-] & _ & ->).
  - split; [done|]. by intros (s & ? & _).
Qed.

Lemma group_key_None idby e :
  group_key idby e = None ↔
  identifier_of idby e = None ∨ identifier_of idby e = Some ""%string.
Proof.
  unfold group_key. destruct (identifier_of idby e) as [s|].
  - destruct (decide (s = ""%string)) as [->|Hne].
    + split; [by right|done].
    + split; [done|]. intros [?|[= ?]]; done.
  - split; [by left|done].
Qed.

(** C8: two items of a batch are put in the same group if and only if both
    have a non-empty identifier and the two identifiers are equal once
    lower-cased; an item whose identifier is missing or empty is in no
    group; and every group lists its items in the order of the batch. *)
Theorem grouping_by_identifier entries idby i j ei ej :
  entries !! i = Some ei →
  entries !! j = Some ej →
  (same_group (group_entries entries idby) (i, ei) (j, ej) ↔
   ∃ si sj, identifier_of idby ei = Some si ∧ identifier_of idby ej = Some sj
            ∧ si ≠ ""%string ∧ sj ≠ ""%string ∧ lower si = lower sj)
  ∧ (identifier_of idby ei = None ∨ identifier_of idby ei = Some ""%string →
     ∀ k xs, (k, xs) ∈ group_entries entries idby → (i, ei) ∉ xs)
  ∧ (∀ k xs, (k, xs) ∈ group_entries entries idby → xs `sublist_of` refs entries).
Proof.
  intros Hi Hj. split_and!.
  - split.
    + intros (k & xs & Hg & Hx & Hy).
      destruct (group_entries_refs _ _ _ _ _ Hg Hx) as [_ Hki].
      destruct (group_entries_refs _ _ _ _ _ Hg Hy) as [_ Hkj].
      apply group_key_Some in Hki as (si & Hsi & Hnei & ->).
      apply group_key_Some in Hkj as (sj & Hsj & Hnej & Heq).
      by exists si, sj.
    + intros (si & sj & Hsi & Hsj & Hnei & Hnej & Heq).
      assert (group_key idby ei = Some (lower si)) as Hki
        by (apply group_key_Some; by exists si).
      assert (group_key idby ej = Some (lower si)) as Hkj
        by (apply group_key_Some; by exists sj).
      destruct (group_entries_complete entries idby i ei _ Hi Hki) as (xs & Hg & Hx).
      destruct (group_entries_complete entries idby j ej _ Hj Hkj) as (xs' & Hg' & Hy).
      exists (lower si), xs. split_and!; [done..|].
      rewrite (group_entries_elem_of _ _ _ _ Hg).
      by rewrite <-(group_entries_elem_of _ _ _ _ Hg').
  - intros Hnone%group_key_None k xs Hg Hx.
    destruct (group_entries_refs _ _ _ _ _ Hg Hx) as [_ Hk]. simpl in Hk. congruence.
  - intros k xs ->%group_entries_elem_of. by apply sublist_filter.
Qed.
End GroupingClaim.

(** ** The scenarios, run *)

(** Scenario A: on an empty store the filter phase makes no call, and the
    learn phase on both items records the quality 1080p. *)
Lemma scenario_A :
  item_filter (config_on_lower lower_skip) ∅ [item_720; item_1080] [fresh; fresh]
  = @mkRun item_entry [fresh; fresh] []
  ∧ up_quality <$>
      (item_learn (config_on_lower lower_skip) ∅ [item_720; item_1080] 7 !! show_id)
    = Some 1080%Z.
Proof. by vm_compute. Qed.

(** Scenario D: the record is at 1080p and the target asks for 1080p or
    better; whatever the items, none is called on. *)
Lemma scenario_D :
  trace (item_filter (CDict (mkDict None None (Some "1080p"%string) (Some lower_reject)))
           store_1080 [item_480; item_720; item_1080] [fresh; fresh; fresh]) = [].
Proof. by vm_compute. Qed.

(** C2 (as amended): with the boolean [False] as configuration the filter
    phase is disabled, it returns at once, with no call made and every state
    as it was; the learn phase is not disabled, it does what it does under
    the default configuration [True], in which tracking is on, and leaves a
    record for every accepted entry that has an identifier. *)
Theorem disabled_config `{EA : EntryApi} `{QA : QualityApi}
    (session : gmap string EntryUpgrade) entries sts acc now i e k :
  acc !! i = Some e →
  group_key "auto" e = Some k →
  on_task_filter (CBool false) session entries sts = mkRun sts []
  ∧ on_task_learn (CBool false) session acc now
    = on_task_learn (CBool true) session acc now
  ∧ is_Some (on_task_learn (CBool false) session acc now !! k).
Proof.
  intros Hi Hk. split_and!; [done..|].
  by apply (on_task_learn_records (CBool false) session acc now i e k).
Qed.

(** ** The properties at concrete inputs *)

(** C1, as stated, fails: with the record at 720p, items at 480p and 1080p
    and [on_lower] set to [reject], the item at 480p is below the record and
    below the accepted best item, and [reject] is called on it twice. *)
Lemma double_action_counterexample :
  ¬ at_most_one_call
      (item_filter (config_on_lower lower_reject) store_720
         [item_480; item_1080] [fresh; fresh]).
Proof.
  intros Hone. specialize (Hone 0). vm_compute in Hone. lia.
Qed.

(** C2, as stated, fails: with [False] as configuration and one accepted
    entry, the learn phase writes a record into the empty store. *)
Lemma disabled_learn_counterexample :
  item_learn (CBool false) ∅ [item_1080] 7 ≠ ∅.
Proof.
  intros Hempty.
  assert (item_learn (CBool false) ∅ [item_1080] 7 !! show_id
          = Some (mkUpgrade (Some "Show S01E01 1080p"%string) 1080 None 7))
    as Hrow by by vm_compute.
  rewrite Hempty in Hrow. by rewrite lookup_empty in Hrow.
Qed.

(** C3, as stated, fails: a record at 720p and an accepted entry at 720p;
    the learn phase overwrites the title and the time of the record. *)
Lemma equal_quality_counterexample :
  ¬ learn_leaves_record (EA := item_entry) (CBool true) store_720 [item_720_repack] 7.
Proof.
  intros Hkept.
  specialize (Hkept show_id [(0, item_720_repack)] record_720 (0, item_720_repack) []).
  assert (item_learn (CBool true) store_720 [item_720_repack] 7 !! show_id
          = Some (mkUpgrade (Some "Show S01E01 720p REPACK"%string) 720 None 7))
    as Hnew by by vm_compute.
  unfold item_learn in Hnew. rewrite Hnew in Hkept.
  assert (Some (mkUpgrade (Some "Show S01E01 720p REPACK"%string) 720 None 7)
          = Some record_720) as Heq; [|discriminate Heq].
  apply Hkept.
  - vm_compute. apply elem_of_cons; by left.
  - by vm_compute.
  - done.
  - unfold rquality; simpl. lia.
Qed.

(** Scenario C: the record is at 720p, the item at 480p and [on_lower] is
    [reject]; the item is rejected by one call. *)
Lemma scenario_C :
  item_filter (config_on_lower lower_reject) store_720 [item_480] [fresh]
  = @mkRun item_entry
      [mkItem was_rejected
         (Some "on_lower reject because lower then existing quality"%string)]
      [mkCall 0 Reject "on_lower reject because lower then existing quality"].
Proof. by vm_compute. Qed.

(** C4, as stated, fails: in scenario C the item is rejected with a reason
    that is not "lower than existing quality". *)
Lemma reason_text_counterexample :
  ¬ (states (item_filter (config_on_lower lower_reject) store_720 [item_480] [fresh]) !! 0
     = Some (mkItem was_rejected (Some "lower than existing quality"%string))).
Proof. rewrite scenario_C. discriminate. Qed.

(** C4 (as amended) in scenario C. *)
Lemma lower_than_existing_reason_witness :
  mkCall 0 Reject "on_lower reject because lower then existing quality"
    ∈ trace (item_filter (config_on_lower lower_reject) store_720 [item_480] [fresh]).
Proof.
  apply (@lower_than_existing_reason item_entry sample_quality
           (config_on_lower lower_reject) store_720 [item_480] [fresh]
           show_id [(0, item_480)] record_720 Reject (0, item_480)).
  - reflexivity.
  - vm_compute. apply elem_of_cons; by left.
  - by vm_compute.
  - reflexivity.
  - reflexivity.
  - vm_compute. apply elem_of_cons; by left.
  - unfold rquality; simpl; lia.
Defined.

(** C5 in scenario D: the record is at 1080p and the target allows it. *)
Lemma target_short_circuit_witness :
  calls_on 0 (trace (item_filter
                       (CDict (mkDict None None (Some "1080p"%string) (Some lower_reject)))
                       store_1080 [item_480; item_1080] [fresh; fresh])) = []
  ∧ states (item_filter
              (CDict (mkDict None None (Some "1080p"%string) (Some lower_reject)))
              store_1080 [item_480; item_1080] [fresh; fresh]) !! 0 = Some fresh.
Proof.
  apply (@target_short_circuit item_entry sample_quality
           (CDict (mkDict None None (Some "1080p"%string) (Some lower_reject)))
           store_1080 [item_480; item_1080] [fresh; fresh] "1080p"%string
           show_id [(0, item_480); (1, item_1080)] record_1080 0).
  - reflexivity.
  - vm_compute. apply elem_of_cons; by left.
  - by vm_compute.
  - right. reflexivity.
  - vm_compute. apply elem_of_cons; by left.
Defined.

(** C7 in scenario B: the record is at 720p, the only item at 1080p, no
    target, [on_lower] is [skip]; the item ends accepted with the reason
    "upgraded quality". *)
Lemma upgrade_accepts_best_witness :
  mkCall 0 Accept "upgraded quality"
    ∈ trace (item_filter (config_on_lower lower_skip) store_720 [item_1080] [fresh])
  ∧ states (item_filter (config_on_lower lower_skip) store_720 [item_1080] [fresh]) !! 0
    = Some (mkItem was_accepted (Some "upgraded quality"%string)).
Proof.
  destruct (@upgrade_accepts_best item_entry sample_quality
              (config_on_lower lower_skip) store_720 [item_1080] [fresh]
              show_id [(0, item_1080)] record_720 (0, item_1080) [])
    as [Hiff Hstate].
  - reflexivity.
  - vm_compute. apply elem_of_cons; by left.
  - by vm_compute.
  - reflexivity.
  - reflexivity.
  - split.
    + apply Hiff. unfold rquality; simpl; lia.
    + apply Hstate. unfold rquality; simpl; lia.
Defined.

(** C6 on two learn phases: 480p is accepted first, then 1080p. *)
Lemma stored_quality_monotone_witness :
  ∃ r', learn_many (EA := item_entry) store_720
          ([mkLearnRun (CBool true) [item_480] 3]
           ++ [mkLearnRun (CBool true) [item_1080] 7]) !! show_id = Some r'
        ∧ (up_quality record_720 ≤ up_quality r')%Z.
Proof.
  apply (@stored_quality_monotone item_entry store_720
           [mkLearnRun (CBool true) [item_480] 3]
           [mkLearnRun (CBool true) [item_1080] 7] show_id record_720).
  by vm_compute.
Defined.

(** C2 (as amended) on an empty store and one accepted entry. *)
Lemma disabled_config_witness :
  item_filter (CBool false) ∅ [item_1080] [fresh] = @mkRun item_entry [fresh] []
  ∧ item_learn (CBool false) ∅ [item_1080] 7 = item_learn (CBool true) ∅ [item_1080] 7
  ∧ is_Some (item_learn (CBool false) ∅ [item_1080] 7 !! show_id).
Proof.
  apply (@disabled_config item_entry sample_quality ∅ [item_1080] [fresh]
           [item_1080] 7 0 item_1080 show_id).
  - reflexivity.
  - reflexivity.
Defined.

(** C3 (as amended) on a record at 1080p and an accepted entry at 720p. *)
Lemma learn_keeps_better_record_witness :
  item_learn (CBool true) store_1080 [item_720] 7 !! show_id = Some record_1080.
Proof.
  apply (@learn_keeps_better_record item_entry (CBool true) store_1080 [item_720] 7
           show_id [(0, item_720)] record_1080 (0, item_720) []).
  - reflexivity.
  - vm_compute. apply elem_of_cons; by left.
  - by vm_compute.
  - reflexivity.
  - unfold rquality; simpl; lia.
Defined.

(** C8 on two items whose identifiers differ by case only. *)
Lemma grouping_by_identifier_witness :
  same_group (group_entries (EA := item_entry) [item_480; item_1080] "auto")
    (0, item_480) (1, item_1080).
Proof.
  destruct (@grouping_by_identifier item_entry [item_480; item_1080] "auto"%string
              0 1 item_480 item_1080) as (Hiff & _ & _).
  - reflexivity.
  - reflexivity.
  - apply Hiff. exists "Show.S01E01"%string, "show.s01e01"%string.
    split_and!; [reflexivity|reflexivity|discriminate|discriminate|reflexivity].
Defined.

(** C10 on the concrete pipeline, whose operations overwrite the state of
    an item. *)
Lemma filter_twice_witness :
  let first :=
    item_filter (config_on_lower lower_reject) store_720
      [item_480; item_1080] [fresh; fresh] in
  let second :=
    item_filter (config_on_lower lower_reject) store_720
      [item_480; item_1080] (states first) in
  trace second = trace first ∧ states second = states first.
Proof.
  apply (@filter_twice item_entry sample_quality).
  - intros a msg s. reflexivity.
  - intros a msg msg' s. reflexivity.
Defined.

(** * Further properties of the plugin *)

(** ** The grouped dictionary *)

Lemma lower_ascii_idemp c : lower_ascii (lower_ascii c) = lower_ascii c.
Proof. destruct c as [[] [] [] [] [] [] [] []]; reflexivity. Qed.

Lemma lower_idemp s : lower (lower s) = lower s.
Proof.
  induction s as [|c s IH]; simpl; [done|]. by rewrite lower_ascii_idemp, IH.
Qed.

Section GroupedDictionary.
Context `{EA : EntryApi}.

(** No key of the grouped dictionary holds an empty list. *)
Lemma grouped_keys_wf entries idby :
  NoDup (group_entries entries idby).*1
  ∧ Forall (λ g, g.2 ≠ []) (group_entries entries idby).
Proof.
  split; [apply NoDup_keys_group_entries|].
  apply Forall_forall. intros [k xs] Hg. simpl.
  assert (k ∈ (group_entries entries idby).*1) as Hk
    by by apply (list_elem_of_fmap_2 fst _ (k, xs)).
  apply group_entries_key in Hk as (r & Hr & Hkey).
  rewrite (group_entries_elem_of _ _ _ _ Hg). intros Hnil.
  assert (r ∈ filter (λ r, group_key idby r.2 = Some k) (refs entries)) as Hin
    by by apply list_elem_of_filter.
  rewrite Hnil in Hin. by apply elem_of_nil in Hin.
Qed.

(** The grouped dictionary is well formed: its keys are pairwise distinct,
    no key holds an empty list, and no entry is listed twice, under one key
    or under two. *)
Theorem grouped_keys_distinct_nonempty entries idby :
  NoDup (group_entries entries idby).*1
  ∧ Forall (λ g, g.2 ≠ []) (group_entries entries idby)
  ∧ NoDup ((group_entries entries idby) ≫= (λ g, g.2.*1)).
Proof.
  destruct (grouped_keys_wf entries idby) as [Hkeys Hne]. split_and!; [done..|].
  pose proof (λ g, group_entries_NoDup entries idby g.1 g.2) as Hnd.
  pose proof (λ g g' i, group_entries_disjoint entries idby g.1 g.2 g'.1 g'.2 i)
    as Hdisj.
  revert Hkeys Hnd Hdisj. generalize (group_entries entries idby). clear.
  intros G. induction G as [|g G IH]; intros Hkeys Hnd Hdisj; csimpl.
  - apply NoDup_nil_2.
  - apply NoDup_cons in Hkeys as [Hg Hkeys]. apply NoDup_app. split_and!.
    + apply Hnd. destruct g. apply elem_of_cons; by left.
    + intros i Hi (g' & Hi' & Hg')%list_elem_of_bind.
      assert (g.1 = g'.1) as Heq.
      { apply (Hdisj g g' i); [| |done..].
        - destruct g. apply elem_of_cons; by left.
        - destruct g'. apply elem_of_cons; by right. }
      apply Hg. rewrite Heq. by apply list_elem_of_fmap_2.
    + apply IH; [done| |].
      * intros g' Hg'. apply Hnd. apply elem_of_cons; by right.
      * intros g1 g2 i Hg1 Hg2. apply Hdisj; apply elem_of_cons; by right.
Qed.

(** Every key of the grouped dictionary is lower-case: lower-casing it
    again changes nothing. *)
Theorem grouped_keys_lower entries idby :
  Forall (λ g, lower g.1 = g.1) (group_entries entries idby).
Proof.
  apply Forall_forall. intros [k xs] Hg. simpl.
  assert (k ∈ (group_entries entries idby).*1) as Hk
    by by apply (list_elem_of_fmap_2 fst _ (k, xs)).
  apply group_entries_key in Hk as (r & _ & Hkey).
  apply group_key_Some in Hkey as (s & _ & _ & ->). apply lower_idemp.
Qed.

(** An entry with a non-empty identifier is filed in exactly one group, the
    one of its lower-cased identifier. *)
Theorem entry_in_one_group entries idby i e k :
  entries !! i = Some e →
  group_key idby e = Some k →
  ∃ xs, (k, xs) ∈ group_entries entries idby ∧ (i, e) ∈ xs
        ∧ ∀ k' xs', (k', xs') ∈ group_entries entries idby → i ∈ xs'.*1 →
                    k' = k ∧ xs' = xs.
Proof.
  intros Hi Hk.
  destruct (group_entries_complete entries idby i e k Hi Hk) as (xs & Hg & Hx).
  exists xs. split_and!; [done..|]. intros k' xs' Hg' Hi'.
  assert (k = k') as <-.
  { eapply (group_entries_disjoint entries idby k xs k' xs' i); [done..| |done].
    by apply (list_elem_of_fmap_2 fst _ (i, e)). }
  split; [done|].
  rewrite (group_entries_elem_of _ _ _ _ Hg).
  by rewrite (group_entries_elem_of _ _ _ _ Hg').
Qed.

(** The entries of a group are entries of the task, at their positions. *)
Lemma group_member_lookup entries idby k xs i e :
  (k, xs) ∈ group_entries entries idby → (i, e) ∈ xs →
  entries !! i = Some e ∧ group_key idby e = Some k.
Proof.
  intros Hg Hx. destruct (group_entries_refs _ _ _ _ _ Hg Hx) as [Hr Hk].
  by apply elem_of_refs in Hr.
Qed.

Lemma group_index_lookup entries idby k xs i :
  (k, xs) ∈ group_entries entries idby → i ∈ xs.*1 →
  ∃ e, (i, e) ∈ xs ∧ entries !! i = Some e ∧ group_key idby e = Some k.
Proof.
  intros Hg ([i' e] & -> & Hx)%list_elem_of_fmap. exists e. split; [done|].
  by eapply group_member_lookup.
Qed.
End GroupedDictionary.

(** ** What the filter phase leaves alone *)

Section FilterEdges.
Context `{EA : EntryApi} `{QA : QualityApi}.

Lemma calls_none_state config session entries sts i :
  calls_on i (filter_calls config session entries sts) = [] →
  calls_on i (trace (on_task_filter config session entries sts)) = []
  ∧ states (on_task_filter config session entries sts) !! i = sts !! i.
Proof.
  intros Hnone.
  rewrite trace_on_task_filter, states_on_task_filter, replay_lookup, Hnone.
  split; [done|]. by destruct (sts !! i).
Qed.

(** Calls are made on entries within the target only. *)
Lemma group_calls_within_target config existing entries sts c :
  c ∈ group_calls config existing entries sts →
  call_entry c ∈ (within_target config entries).*1.
Proof.
  unfold group_calls. destruct existing as [ex|]; [|by intros ?%elem_of_nil].
  destruct (at_target config ex); [by intros ?%elem_of_nil|].
  destruct (sort_desc (within_target config entries)) as [|best rest] eqn:Hsort;
    [by intros ?%elem_of_nil|].
  assert (∀ e, e ∈ best :: rest → e.1 ∈ (within_target config entries).*1) as Hin.
  { intros e He. apply list_elem_of_fmap_2.
    by rewrite <-sort_desc_Permutation, Hsort. }
  rewrite !elem_of_app. intros [Hc|[Hc|Hc]].
  - destruct (rquality best >? up_quality ex)%Z; elem_cases Hc.
    apply Hin, elem_of_cons; by left.
  - apply step_calls_entry in Hc as ->. apply Hin, elem_of_cons; by left.
  - apply list_elem_of_bind in Hc as (e & Hc & He).
    apply step_calls_entry in Hc as ->. apply Hin, elem_of_cons; by right.
Qed.

(** A call of the filter phase comes from the group of the entry it is made
    on, and that group has a record. *)
Lemma filter_call_origin config session entries sts c :
  c ∈ trace (on_task_filter config session entries sts) →
  truthy config = true
  ∧ ∃ k xs ex,
      (k, xs) ∈ group_entries entries (identified_by (prepare_config config))
      ∧ session !! k = Some ex
      ∧ c ∈ group_calls (prepare_config config) (Some ex) xs sts.
Proof.
  rewrite trace_on_task_filter. unfold filter_calls.
  destruct (truthy config); [|by intros ?%elem_of_nil].
  intros ([k xs] & Hc & Hg)%list_elem_of_bind. simpl in Hc. split; [done|].
  destruct (session !! k) as [ex|] eqn:Hex; [|by apply elem_of_nil in Hc].
  by exists k, xs, ex.
Qed.

(** An identifier without a record is not acted on: no call is made on the
    entries of its group, and they keep their state. *)
Theorem no_record_no_call config session entries sts k xs i :
  (k, xs) ∈ group_entries entries (identified_by (prepare_config config)) →
  session !! k = None →
  i ∈ xs.*1 →
  calls_on i (trace (on_task_filter config session entries sts)) = []
  ∧ states (on_task_filter config session entries sts) !! i = sts !! i.
Proof.
  intros Hg Hnone Hi. apply calls_none_state.
  destruct (truthy config) eqn:Htruthy.
  - rewrite (calls_on_group_unique _ _ _ _ k xs) by done. by rewrite Hnone.
  - unfold filter_calls. by rewrite Htruthy.
Qed.

(** An entry without an identifier, or with an empty one, is never called
    on and keeps its state. *)
Theorem unidentified_entry_untouched config session entries sts i e :
  entries !! i = Some e →
  group_key (identified_by (prepare_config config)) e = None →
  calls_on i (trace (on_task_filter config session entries sts)) = []
  ∧ states (on_task_filter config session entries sts) !! i = sts !! i.
Proof.
  intros Hi Hkey. apply calls_none_state.
  destruct (calls_on_filter_calls config session entries sts i)
    as [[Hnil _]|(_ & [k xs] & Hg & Hin & _)]; [done|].
  destruct (group_index_lookup _ _ _ _ _ Hg Hin) as (e' & _ & Hi' & Hk).
  congruence.
Qed.

(** With a target set, an entry whose quality the target does not allow is
    never called on and keeps its state. *)
Theorem outside_target_untouched config session entries sts t i e :
  target_set (prepare_config config) = Some t →
  entries !! i = Some e →
  allows t (quality e) = false →
  calls_on i (trace (on_task_filter config session entries sts)) = []
  ∧ states (on_task_filter config session entries sts) !! i = sts !! i.
Proof.
  intros Ht Hi Hout. apply calls_none_state.
  apply calls_on_none. intros c Hc <-.
  rewrite <-trace_on_task_filter in Hc.
  apply filter_call_origin in Hc as (_ & k & xs & ex & Hg & _ & Hc).
  apply group_calls_within_target in Hc.
  apply list_elem_of_fmap in Hc as ([i' e'] & Hi' & Hin). simpl in Hi'.
  unfold within_target in Hin. rewrite Ht in Hin.
  apply list_elem_of_filter in Hin as [Hallowed Hin].
  destruct (group_member_lookup _ _ _ _ _ _ Hg Hin) as [Hl _].
  rewrite <-Hi', Hi in Hl. injection Hl as <-.
  unfold rquality in Hallowed. simpl in Hallowed. rewrite Hout in Hallowed. done.
Qed.

Lemma msg_upgraded_fresh o :
  msg_lower o ≠ msg_upgraded ∧ msg_entries o ≠ msg_upgraded.
Proof. by destruct o. Qed.

(** With [on_lower] left at [skip], the only call the filter phase makes is
    [accept('upgraded quality')]. *)
Theorem skip_only_accepts config session entries sts :
  on_lower (prepare_config config) = lower_skip →
  Forall (λ c, call_action c = Accept ∧ call_reason c = msg_upgraded)
    (trace (on_task_filter config session entries sts)).
Proof.
  intros Hskip. apply Forall_forall. intros c Hc.
  rewrite trace_on_task_filter in Hc.
  assert (c ∈ calls_on (call_entry c) (filter_calls config session entries sts))
    as Hc' by by apply elem_of_calls_on.
  pose proof (filter_calls_shape config session entries sts (call_entry c)) as Hs.
  destruct (entry_calls_elem_of _ _ _ _ Hs Hc') as [->|(a & Ha & _)]; [done|].
  by rewrite Hskip in Ha.
Qed.

Lemma elem_of_within_target_iff config (xs : list (nat * Entry)) x :
  x ∈ within_target config xs ↔
  x ∈ xs ∧ ∀ t, target_set config = Some t → allows t (quality x.2) = true.
Proof.
  unfold within_target. destruct (target_set config) as [t|].
  - rewrite list_elem_of_filter. unfold rquality. split.
    + intros [Hallowed Hx]. split; [done|]. intros t' [= <-].
      by apply Is_true_true.
    + intros [Hx Hallowed]. split; [|done]. by apply Is_true_true, Hallowed.
  - split; [by intros ?|by intros [? _]].
Qed.

(** Where a call of [accept('upgraded quality')] comes from. *)
Lemma upgraded_call_origin config session entries sts i :
  mkCall i Accept msg_upgraded ∈ trace (on_task_filter config session entries sts) →
  ∃ k xs ex e,
    (k, xs) ∈ group_entries entries (identified_by (prepare_config config))
    ∧ session !! k = Some ex
    ∧ (i, e) ∈ within_target (prepare_config config) xs
    ∧ (up_quality ex < quality e)%Z
    ∧ ∀ e', e' ∈ within_target (prepare_config config) xs →
            (rquality e' ≤ quality e)%Z.
Proof.
  intros Hc. apply filter_call_origin in Hc as (_ & k & xs & ex & Hg & Hex & Hc).
  exists k, xs, ex. unfold group_calls in Hc.
  destruct (at_target (prepare_config config) ex); [by apply elem_of_nil in Hc|].
  destruct (sort_desc (within_target (prepare_config config) xs))
    as [|best rest] eqn:Hsort; [by apply elem_of_nil in Hc|].
  destruct (msg_upgraded_fresh (on_lower (prepare_config config))) as [Hlow Hent].
  assert (∀ flag x, mkCall i Accept msg_upgraded
                      ∉ step_calls (on_lower (prepare_config config)) ex flag best x)
    as Hstep.
  { intros flag x Hin. unfold step_calls in Hin.
    destruct (entry_actions (on_lower (prepare_config config)));
      [|by apply elem_of_nil in Hin].
    destruct (rquality x <? up_quality ex)%Z,
      (flag && (rquality best >? rquality x)%Z);
      simpl in Hin; elem_cases Hin; congruence. }
  rewrite !elem_of_app in Hc. destruct Hc as [Hc|[Hc|Hc]].
  - destruct (Z.gtb_spec (rquality best) (up_quality ex)) as [Hgt|];
      [|by apply elem_of_nil in Hc].
    apply list_elem_of_singleton in Hc. injection Hc as ->.
    exists best.2. split_and!; [done..| | |].
    + rewrite <-sort_desc_Permutation, Hsort. destruct best. apply elem_of_cons; by left.
    + done.
    + intros e' He'. by apply (sort_desc_best _ _ _ Hsort).
  - by destruct (Hstep false best).
  - apply list_elem_of_bind in Hc as (x & Hc & _). exfalso. eapply Hstep, Hc.
Qed.

(** [accept('upgraded quality')] is only called on an entry whose quality is
    strictly above the record of its identifier, that the target allows when
    one is set, and that is at least as good as every entry of the batch
    with the same identifier that the target allows. *)
Theorem upgrade_accept_only_best config session entries sts i :
  mkCall i Accept msg_upgraded ∈ trace (on_task_filter config session entries sts) →
  ∃ e k ex,
    entries !! i = Some e
    ∧ group_key (identified_by (prepare_config config)) e = Some k
    ∧ session !! k = Some ex
    ∧ (up_quality ex < quality e)%Z
    ∧ (∀ t, target_set (prepare_config config) = Some t → allows t (quality e) = true)
    ∧ ∀ j e', entries !! j = Some e' →
        group_key (identified_by (prepare_config config)) e' = Some k →
        (∀ t, target_set (prepare_config config) = Some t →
              allows t (quality e') = true) →
        (quality e' ≤ quality e)%Z.
Proof.
  intros (k & xs & ex & e & Hg & Hex & Hin & Hlt & Hbest)%upgraded_call_origin.
  apply elem_of_within_target_iff in Hin as [Hin Hallowed].
  destruct (group_member_lookup _ _ _ _ _ _ Hg Hin) as [Hl Hk].
  exists e, k, ex. split_and!; [done..|].
  intros j e' Hj Hk' Hallowed'.
  destruct (group_entries_complete entries _ j e' k Hj Hk') as (xs' & Hg' & Hx').
  assert (xs' = xs) as ->.
  { rewrite (group_entries_elem_of _ _ _ _ Hg).
    by rewrite (group_entries_elem_of _ _ _ _ Hg'). }
  apply (Hbest (j, e')). by apply elem_of_within_target_iff.
Qed.

(** The filter phase neither adds nor drops an entry state, and every call
    is made on a position of the task. *)
Theorem filter_keeps_positions config session entries sts :
  length (states (on_task_filter config session entries sts)) = length sts
  ∧ Forall (λ c, call_entry c < length entries)
      (trace (on_task_filter config session entries sts)).
Proof.
  split; [by rewrite states_on_task_filter, length_replay|].
  apply Forall_forall. intros c Hc.
  apply filter_call_origin in Hc as (_ & k & xs & ex & Hg & _ & Hc).
  apply group_calls_entry in Hc.
  destruct (group_index_lookup _ _ _ _ _ Hg Hc) as (e & _ & Hl & _).
  by apply lookup_lt_Some in Hl.
Qed.
End FilterEdges.

(** ** What the learn phase writes *)

Section LearnWrites.
Context `{EA : EntryApi}.

(** The row the learn phase leaves for the identifier of a group. *)
Lemma on_task_learn_group config (db : gmap string EntryUpgrade) acc now
    k xs best rest :
  tracking (prepare_config config) = true →
  (k, xs) ∈ group_entries acc (identified_by (prepare_config config)) →
  sort_desc xs = best :: rest →
  on_task_learn config db acc now !! k =
  Some match db !! k with
       | None => mkUpgrade (Some (title best.2)) (rquality best) None now
       | Some r =>
           if (up_quality r >? rquality best)%Z then r
           else mkUpgrade (Some (title best.2)) (rquality best) (up_proper r) now
       end.
Proof.
  intros Htrack Hg Hsort. rewrite on_task_learn_lookup, Htrack.
  set (G := group_entries acc _) in *.
  assert (k ∈ G.*1) as Hk by by apply (list_elem_of_fmap_2 fst _ (k, xs)).
  rewrite decide_True by done.
  rewrite (members_elem_of k xs G) by (done || apply NoDup_keys_group_entries).
  unfold learn_group. simpl. rewrite Hsort, prefetch_lookup by done.
  destruct xs; [done|]. simpl. destruct (db !! k) as [r|] eqn:Hr.
  - destruct (up_quality r >? rquality best)%Z; [done|]. by rewrite lookup_insert_eq.
  - by rewrite lookup_insert_eq.
Qed.

(** For an identifier without a record the learn phase creates one, with
    the quality and title of the best accepted entry of the group and the
    time of the run. *)
Theorem learn_creates_record config (db : gmap string EntryUpgrade) acc now
    k xs best rest :
  tracking (prepare_config config) = true →
  (k, xs) ∈ group_entries acc (identified_by (prepare_config config)) →
  sort_desc xs = best :: rest →
  db !! k = None →
  on_task_learn config db acc now !! k
  = Some (mkUpgrade (Some (title best.2)) (quality best.2) None now).
Proof.
  intros Htrack Hg Hsort Hnone.
  by rewrite (on_task_learn_group _ _ _ _ _ _ _ _ Htrack Hg Hsort), Hnone.
Qed.

(** When the best accepted entry of a group is strictly better than the
    record, the record takes its quality and title and the time of the run;
    the column [proper] keeps its value. *)
Theorem learn_upgrades_record config (db : gmap string EntryUpgrade) acc now
    k xs best rest r :
  tracking (prepare_config config) = true →
  (k, xs) ∈ group_entries acc (identified_by (prepare_config config)) →
  sort_desc xs = best :: rest →
  db !! k = Some r →
  (up_quality r < quality best.2)%Z →
  on_task_learn config db acc now !! k
  = Some (mkUpgrade (Some (title best.2)) (quality best.2) (up_proper r) now).
Proof.
  intros Htrack Hg Hsort Hr Hlt.
  rewrite (on_task_learn_group _ _ _ _ _ _ _ _ Htrack Hg Hsort), Hr.
  unfold rquality. destruct (Z.gtb_spec (up_quality r) (quality best.2)); [lia|done].
Qed.

(** The learn phase leaves alone the record of every identifier that no
    accepted entry carries. *)
Theorem learn_frame config (db : gmap string EntryUpgrade) acc now k :
  (∀ i e, acc !! i = Some e →
          group_key (identified_by (prepare_config config)) e ≠ Some k) →
  on_task_learn config db acc now !! k = db !! k.
Proof.
  intros Hno. rewrite on_task_learn_lookup.
  destruct (tracking _); [|done]. destruct (decide _) as [Hk|Hk]; [|done].
  apply group_entries_key in Hk as ([i e] & Hr%elem_of_refs & Hkey).
  by destruct (Hno i e Hr).
Qed.

(** The record left for the identifier of a group is at least as good as
    every entry of the group. *)
Lemma learn_dominates_member config (db : gmap string EntryUpgrade) acc now
    k xs x :
  tracking (prepare_config config) = true →
  (k, xs) ∈ group_entries acc (identified_by (prepare_config config)) →
  x ∈ xs →
  ∃ r, on_task_learn config db acc now !! k = Some r
       ∧ (rquality x ≤ up_quality r)%Z.
Proof.
  intros Htrack Hg Hx.
  destruct (sort_desc xs) as [|best rest] eqn:Hsort.
  { apply sort_desc_nil in Hsort. subst. by apply elem_of_nil in Hx. }
  pose proof (sort_desc_best _ _ _ Hsort _ Hx) as Hle.
  rewrite (on_task_learn_group _ _ _ _ _ _ _ _ Htrack Hg Hsort).
  destruct (db !! k) as [r|]; [|eexists; split; [done|]; simpl; lia].
  destruct (Z.gtb_spec (up_quality r) (rquality best));
    (eexists; split; [done|]); simpl; lia.
Qed.

(** After a learn phase with tracking on, the record of an identifier is at
    least as good as every accepted entry that carries the identifier. *)
Theorem learned_quality_dominates config (db : gmap string EntryUpgrade) acc now
    i e k :
  tracking (prepare_config config) = true →
  acc !! i = Some e →
  group_key (identified_by (prepare_config config)) e = Some k →
  ∃ r, on_task_learn config db acc now !! k = Some r
       ∧ (quality e ≤ up_quality r)%Z.
Proof.
  intros Htrack Hi Hk.
  destruct (group_entries_complete acc _ i e k Hi Hk) as (xs & Hg & Hx).
  apply (learn_dominates_member config db acc now k xs (i, e) Htrack Hg Hx).
Qed.

(** The identifiers of the store stay lower-case: if every key of the store
    is, so is every key after a learn phase. *)
Theorem learn_keys_lower config (db : gmap string EntryUpgrade) acc now :
  (∀ k, is_Some (db !! k) → lower k = k) →
  ∀ k, is_Some (on_task_learn config db acc now !! k) → lower k = k.
Proof.
  intros Hdb k. rewrite on_task_learn_lookup.
  destruct (tracking _); [|apply Hdb]. destruct (decide _) as [Hk|Hk]; [|apply Hdb].
  intros _. apply group_entries_key in Hk as (r & _ & Hkey).
  apply group_key_Some in Hkey as (s & _ & _ & ->). apply lower_idemp.
Qed.
(** Learning the same accepted entries again changes nothing but the time
    of the records: their quality, title and [proper] stay. *)
Theorem learn_again_keeps_content config (db : gmap string EntryUpgrade)
    acc now now' k :
  record_content <$>
    on_task_learn config (on_task_learn config db acc now) acc now' !! k
  = record_content <$> on_task_learn config db acc now !! k.
Proof.
  destruct (tracking (prepare_config config)) eqn:Htrack.
  2:{ rewrite !on_task_learn_lookup, Htrack. done. }
  set (G := group_entries acc (identified_by (prepare_config config))).
  destruct (decide (k ∈ G.*1)) as [Hk|Hk].
  - pose proof (elem_of_members k G Hk) as Hg.
    destruct (grouped_keys_wf acc (identified_by (prepare_config config)))
      as [_ Hne].
    pose proof (proj1 (Forall_forall _ _) Hne _ Hg) as Hxs. simpl in Hxs.
    destruct (sort_desc (members k G)) as [|best rest] eqn:Hsort;
      [by apply sort_desc_nil in Hsort|].
    rewrite (on_task_learn_group config _ acc now' _ _ _ _ Htrack Hg Hsort).
    rewrite (on_task_learn_group config db acc now _ _ _ _ Htrack Hg Hsort).
    destruct (db !! k) as [r|]; simpl.
    + destruct (Z.gtb_spec (up_quality r) (rquality best)) as [Hgt|Hle].
      * by rewrite (proj2 (Z.gtb_gt _ _)) by lia.
      * simpl. by rewrite Z.gtb_ltb, Z.ltb_irrefl.
    + by rewrite Z.gtb_ltb, Z.ltb_irrefl.
  - rewrite (on_task_learn_lookup config _ acc now'), Htrack. fold G.
    by rewrite decide_False.
Qed.
End LearnWrites.

(** ** The two phases together *)

Section FilterAfterLearn.
Context `{EA : EntryApi} `{QA : QualityApi}.

(** Once a learn phase with tracking on has recorded a batch, the filter
    phase on the same batch, under the same configuration, accepts no entry
    as an upgrade. *)
Theorem no_upgrade_after_learn config (db : gmap string EntryUpgrade)
    entries now sts :
  tracking (prepare_config config) = true →
  Forall (λ c, call_reason c ≠ msg_upgraded)
    (trace (on_task_filter config (on_task_learn config db entries now) entries sts)).
Proof.
  intros Htrack. apply Forall_forall. intros c Hc Hmsg.
  set (db' := on_task_learn config db entries now) in *.
  assert (c = mkCall (call_entry c) Accept msg_upgraded) as Hshape.
  { rewrite trace_on_task_filter in Hc.
    assert (c ∈ calls_on (call_entry c) (filter_calls config db' entries sts))
      as Hc' by by apply elem_of_calls_on.
    pose proof (filter_calls_shape config db' entries sts (call_entry c)) as Hs.
    destruct (msg_upgraded_fresh (on_lower (prepare_config config))) as [Hlow Hent].
    destruct (entry_calls_elem_of _ _ _ _ Hs Hc') as [Heq|(a & _ & [Heq|Heq])];
      [done| |]; rewrite Heq in Hmsg; cbn [call_reason] in Hmsg; congruence. }
  rewrite Hshape in Hc.
  apply upgraded_call_origin in Hc as (k & xs & ex & e & Hg & Hex & Hin & Hlt & _).
  apply elem_of_within_target in Hin.
  destruct (group_member_lookup _ _ _ _ _ _ Hg Hin) as [Hl Hk].
  destruct (learn_dominates_member config db entries now k xs _ Htrack Hg Hin)
    as (r & Hr & Hle).
  unfold rquality in Hle. simpl in Hle.
  fold db' in Hr. rewrite Hex in Hr. injection Hr as <-. lia.
Qed.
End FilterAfterLearn.

(** ** The request the rutracker handler prepares *)

Lemma take_digits_all_digits s : all_chars is_digit (take_digits s) = true.
Proof.
  induction s as [|c s IH]; simpl; [done|].
  destruct (is_digit c) eqn:Hc; simpl; [by rewrite Hc|done].
Qed.

Lemma take_digits_split s :
  ∃ post, s = (take_digits s +:+ post)%string ∧ take_digits post = ""%string.
Proof.
  induction s as [|c s (post & Hs & Hpost)]; simpl.
  - by exists ""%string.
  - destruct (is_digit c) eqn:Hc.
    + exists post. split; [|done]. change (String c s = String c (take_digits s +:+ post)).
      by f_equal.
    + exists (String c s). simpl. by rewrite Hc.
Qed.

Lemma take_digits_app d post :
  all_chars is_digit d = true → take_digits post = ""%string →
  take_digits (d +:+ post) = d.
Proof.
  intros Hd Hpost. induction d as [|c d IH]; simpl in *; [done|].
  apply andb_true_iff in Hd as [Hc Hd]. by rewrite Hc, IH.
Qed.

(** The number the handler reads off a url is a non-empty run of digits,
    found after a part of the url without any digit and not followed by a
    digit. *)
Theorem first_number_sound s d :
  first_number s = Some d →
  d ≠ ""%string
  ∧ all_chars is_digit d = true
  ∧ ∃ pre post, s = (pre +:+ d +:+ post)%string
                ∧ all_chars no_digit pre = true
                ∧ take_digits post = ""%string.
Proof.
  induction s as [|c s IH]; simpl; [done|].
  destruct (is_digit c) eqn:Hc.
  - intros [= <-]. split_and!; [done|simpl; by rewrite Hc, take_digits_all_digits|].
    destruct (take_digits_split s) as (post & Hs & Hpost).
    exists ""%string, post. split_and!; [|done..].
    change (String c s = String c (take_digits s +:+ post)). by f_equal.
  - intros (Hne & Hd & pre & post & -> & Hpre & Hpost)%IH.
    split_and!; [done..|]. exists (String c pre), post. split_and!; [done| |done].
    simpl. unfold no_digit at 1. by rewrite Hc.
Qed.

(** Characters that are not digits are passed over. *)
Lemma first_number_skip pre s :
  all_chars no_digit pre = true → first_number (pre +:+ s) = first_number s.
Proof.
  intros Hpre. induction pre as [|c pre IH]; simpl in *; [done|].
  apply andb_true_iff in Hpre as [Hc Hpre]. unfold no_digit in Hc.
  apply negb_true_iff in Hc. rewrite Hc. by apply IH.
Qed.

(** A run of digits at the head is read whole. *)
Lemma first_number_digits d post :
  d ≠ ""%string → all_chars is_digit d = true → take_digits post = ""%string →
  first_number (d +:+ post) = Some d.
Proof.
  intros Hne Hd Hpost. destruct d as [|c d]; [done|]. simpl in *.
  apply andb_true_iff in Hd as [Hc Hd]. by rewrite Hc, take_digits_app.
Qed.

(** It is the first run of digits of the url. *)
Theorem first_number_complete pre d post :
  all_chars no_digit pre = true →
  d ≠ ""%string →
  all_chars is_digit d = true →
  take_digits post = ""%string →
  first_number (pre +:+ d +:+ post) = Some d.
Proof.
  intros Hpre Hne Hd Hpost.
  rewrite first_number_skip by done. by apply first_number_digits.
Qed.

Lemma first_number_None s :
  first_number s = None ↔ all_chars no_digit s = true.
Proof.
  induction s as [|c s IH]; simpl; [done|]. unfold no_digit at 1.
  destruct (is_digit c); simpl; [split; done|done].
Qed.

(** The handler fails, with the [IndexError] of [re.findall(...)[0]],
    exactly on a url that holds no digit. *)
Theorem RutrackerAuth_call_fails cookies_ url_ :
  (∃ err, RutrackerAuth_call cookies_ url_ = inl err) ↔ all_chars no_digit url_ = true.
Proof.
  rewrite <-first_number_None. unfold RutrackerAuth_call.
  destruct (first_number url_); split; try done.
  - by intros [err ?].
  - intros _. by exists IndexError.
Qed.

(** On the url of a topic, [viewtopic.php?t=] followed by the number of the
    topic, the handler asks for the download of that topic: a [POST] of
    [t=<number>] to [dl.php?t=<number>], with the referer of the topic and the
    cookies it keeps. *)
Theorem RutrackerAuth_call_topic cookies_ d rest :
  d ≠ ""%string →
  all_chars is_digit d = true →
  take_digits rest = ""%string →
  ∃ r, RutrackerAuth_call cookies_ (topic_prefix +:+ "?t=" +:+ d +:+ rest) = inr r
       ∧ req_method r = "POST"%string
       ∧ req_url r = ("http://dl.rutracker.org/forum/dl.php?t=" +:+ d)%string
       ∧ req_body r = ("t=" +:+ d)%string
       ∧ req_cookies r = cookies_
       ∧ ("referer", "http://rutracker.org/forum/viewtopic.php?t=" +:+ d)%string
           ∈ req_headers r.
Proof.
  intros Hne Hd Hrest. unfold RutrackerAuth_call.
  assert (first_number (topic_prefix +:+ "?t=" +:+ d +:+ rest) = Some d) as ->.
  { change (topic_prefix +:+ "?t=" +:+ d +:+ rest)%string
      with ((topic_prefix +:+ "?t=") +:+ d +:+ rest)%string.
    rewrite first_number_skip by done. by apply first_number_digits. }
  eexists. split_and!; try done. simpl. apply elem_of_cons; by left.
Qed.

(** ** The saved cookies of rutracker *)

Lemma filter_delete_other {A} (P : A → Prop) `{!∀ x, Decision (P x)}
    (l : list A) i a :
  l !! i = Some a → ¬ P a → filter P (delete i l) = filter P l.
Proof.
  revert i. induction l as [|x l IH]; intros [|i] Hl Hna; simplify_eq/=.
  - by rewrite filter_cons_False.
  - rewrite !filter_cons, (IH i) by done. done.
Qed.

(** The account behind the cookies returned: the first of the user. *)
Lemma try_find_cookie_Some db username now db' c :
  try_find_cookie db username now = (db', Some c) →
  db' = db
  ∧ ∃ i a, db !! i = Some a ∧ login a = username ∧ cookies a = c
           ∧ (now ≤ expiry_time a)%Z
           ∧ ∀ j b, db !! j = Some b → j < i → login b ≠ username.
Proof.
  unfold try_find_cookie.
  destruct (list_find _ db) as [[i a]|] eqn:Hfind; [|done].
  apply list_find_Some in Hfind as (Hl & Hlogin & Hfirst).
  destruct (Z.ltb_spec (expiry_time a) now); [done|].
  intros [= <- <-]. split; [done|]. exists i, a. by split_and!.
Qed.

(** The cookies [try_find_cookie] returns are those of an account of the
    user that has not expired, and returning them leaves the table as it
    was. *)
Theorem try_find_cookie_fresh db username now db' c :
  try_find_cookie db username now = (db', Some c) →
  db' = db
  ∧ ∃ a, a ∈ db ∧ login a = username ∧ cookies a = c ∧ (now ≤ expiry_time a)%Z.
Proof.
  intros (-> & i & a & Hl & Hlogin & Hc & Hexp & _)%try_find_cookie_Some.
  split; [done|]. exists a. split_and!; [by eapply list_elem_of_lookup_2|done..].
Qed.

(** [try_find_cookie] deletes at most one row, and never a row of another
    user. *)
Theorem try_find_cookie_others db username now :
  filter (λ a, login a ≠ username) (try_find_cookie db username now).1
  = filter (λ a, login a ≠ username) db
  ∧ length db ≤ S (length (try_find_cookie db username now).1).
Proof.
  unfold try_find_cookie.
  destruct (list_find _ db) as [[i a]|] eqn:Hfind; [|simpl; split; [done|lia]].
  apply list_find_Some in Hfind as (Hl & Hlogin & _).
  destruct (expiry_time a <? now)%Z; simpl; [|split; [done|lia]].
  split.
  - apply (filter_delete_other _ _ _ a); [done|]. by intros ?.
  - rewrite length_delete by done. lia.
Qed.

(** With no account of the user in the table, nothing is returned and the
    table is left as it was. *)
Lemma try_find_cookie_missing db username now :
  Forall (λ a, login a ≠ username) db →
  try_find_cookie db username now = (db, None).
Proof.
  intros Hnone. unfold try_find_cookie.
  by rewrite (proj2 (list_find_None _ _) Hnone).
Qed.

(** ** Attaching the handler *)

Lemma attach_auth_url h e : url (attach_auth h e) = url e.
Proof. unfold attach_auth. by destruct (String.prefix _ _). Qed.

Section UrlRewrite.
Variable post : string → string → Cookies.

(** When [on_task_urlrewrite] returns, a handler is cached for the user,
    every accepted entry keeps its url, the entries whose url starts with
    the address of a topic carry that handler, and the others are as they
    were. *)
Theorem urlrewrite_attaches st username password now later acc st' out :
  on_task_urlrewrite post st username password now later acc = (st', inr out) →
  ∃ h, auth_cache st' !! username = Some h
       ∧ out = attach_auth h <$> acc
       ∧ ∀ i e, acc !! i = Some e →
           ∃ e', out !! i = Some e' ∧ url e' = url e
                 ∧ (String.prefix topic_prefix (url e) = true →
                    download_auth e' = Some h)
                 ∧ (String.prefix topic_prefix (url e) = false → e' = e).
Proof.
  unfold on_task_urlrewrite.
  destruct (try_find_cookie (accounts st) username now) as [db found].
  assert (∀ h, ∀ i e, acc !! i = Some e →
            ∃ e', (attach_auth h <$> acc) !! i = Some e' ∧ url e' = url e
                  ∧ (String.prefix topic_prefix (url e) = true →
                     download_auth e' = Some h)
                  ∧ (String.prefix topic_prefix (url e) = false → e' = e)) as Hout.
  { intros h i e Hi. exists (attach_auth h e). rewrite list_lookup_fmap, Hi.
    split_and!; [done|apply attach_auth_url|..];
      unfold attach_auth; by intros ->. }
  destruct (auth_cache st !! username) as [h|] eqn:Hcache.
  - intros [= <- <-]. exists h. split_and!; [done..|apply Hout].
  - destruct (RutrackerAuth_init _ _ _ _ _ _) as [err|[db' h]]; [done|].
    intros [= <- <-]. exists h. simpl. rewrite lookup_insert_eq.
    split_and!; [done..|apply Hout].
Qed.

(** A cached handler is used as it is: no login request is made, the
    password is not read, the cache is left as it was, and this whether or
    not the saved account has expired. *)
Theorem urlrewrite_cache_hit st username password now later acc h :
  auth_cache st !! username = Some h →
  (∀ post' password',
     on_task_urlrewrite post' st username password' now later acc
     = on_task_urlrewrite post st username password now later acc)
  ∧ auth_cache (on_task_urlrewrite post st username password now later acc).1
    = auth_cache st
  ∧ (on_task_urlrewrite post st username password now later acc).2
    = inr (attach_auth h <$> acc).
Proof.
  intros Hcache. unfold on_task_urlrewrite.
  destruct (try_find_cookie (accounts st) username now) as [db found].
  by rewrite Hcache.
Qed.

(** A run for one user changes neither the cached handler nor the accounts
    of any other user. *)
Theorem urlrewrite_other_users st username password now later acc other :
  other ≠ username →
  auth_cache (on_task_urlrewrite post st username password now later acc).1 !! other
  = auth_cache st !! other
  ∧ filter (λ a, login a = other)
      (accounts (on_task_urlrewrite post st username password now later acc).1)
    = filter (λ a, login a = other) (accounts st).
Proof.
  intros Hne. unfold on_task_urlrewrite.
  assert (filter (λ a, login a = other) (try_find_cookie (accounts st) username now).1
          = filter (λ a, login a = other) (accounts st)) as Hdb.
  { unfold try_find_cookie.
    destruct (list_find _ (accounts st)) as [[i a]|] eqn:Hfind; [|done].
    apply list_find_Some in Hfind as (Hl & Hlogin & _).
    destruct (expiry_time a <? now)%Z; simpl; [|done].
    apply (filter_delete_other _ _ _ a); [done|]. congruence. }
  destruct (try_find_cookie (accounts st) username now) as [db found].
  simpl in Hdb. destruct (auth_cache st !! username) as [h|]; [done|].
  unfold RutrackerAuth_init. destruct found as [c|]; simpl.
  - by rewrite lookup_insert_ne.
  - destruct (bool_decide _); simpl; [done|]. rewrite lookup_insert_ne by done.
    split; [done|]. rewrite filter_app, filter_cons_False, filter_nil, app_nil_r; [done|].
    simpl. congruence.
Qed.


(** After a run that had to build the handler, the table holds an account
    of the user that has not expired and whose cookies are those of the
    handler. *)
Theorem urlrewrite_account_saved st username password now later acc st' out :
  (now ≤ later)%Z →
  auth_cache st !! username = None →
  on_task_urlrewrite post st username password now later acc = (st', inr out) →
  ∃ a, a ∈ accounts st' ∧ login a = username ∧ (now ≤ expiry_time a)%Z
       ∧ auth_cache st' !! username = Some (cookies a).
Proof.
  intros Hlater Hcache. unfold on_task_urlrewrite.
  destruct (try_find_cookie (accounts st) username now) as [db found] eqn:Hfind.
  rewrite Hcache. unfold RutrackerAuth_init. destruct found as [c|].
  - intros [= <- <-]. simpl.
    apply try_find_cookie_Some in Hfind as (-> & j & a & Ha & Hlogin & Hc & Hexp & _).
    exists a. rewrite lookup_insert_eq, Hc.
    split_and!; [by eapply list_elem_of_lookup_2|done..].
  - destruct (bool_decide _); [done|]. intros [= <- <-]. simpl.
    exists (mkAccount username (post username password) (later + one_day)).
    rewrite lookup_insert_eq. split_and!; [|done| |done].
    + apply elem_of_app. right. apply elem_of_cons; by left.
    + simpl. unfold one_day. lia.
Qed.
End UrlRewrite.

(** ** The further properties at concrete inputs *)

Lemma entry_in_one_group_witness :
  ∃ xs, (show_id, xs) ∈ group_entries (EA := item_entry) [item_480; item_1080] "auto"
        ∧ (0, item_480) ∈ xs
        ∧ ∀ k' xs', (k', xs') ∈ group_entries (EA := item_entry) [item_480; item_1080] "auto" →
                    0 ∈ xs'.*1 → k' = show_id ∧ xs' = xs.
Proof.
  apply (entry_in_one_group (EA := item_entry) [item_480; item_1080] "auto" 0
           item_480 show_id).
  - reflexivity.
  - reflexivity.
Defined.

Lemma no_record_no_call_witness :
  calls_on 0 (trace (item_filter (config_on_lower lower_reject) ∅
                       [item_720; item_1080] [fresh; fresh])) = []
  ∧ states (item_filter (config_on_lower lower_reject) ∅
              [item_720; item_1080] [fresh; fresh]) !! 0 = Some fresh.
Proof.
  apply (no_record_no_call (EA := item_entry) (QA := sample_quality)
           (config_on_lower lower_reject) ∅ [item_720; item_1080] [fresh; fresh]
           show_id [(0, item_720); (1, item_1080)] 0).
  - vm_compute. apply elem_of_cons; by left.
  - reflexivity.
  - vm_compute. apply elem_of_cons; by left.
Defined.

Lemma unidentified_entry_untouched_witness :
  calls_on 0 (trace (item_filter (config_on_lower lower_reject) store_720
                       [item_noid; item_480] [fresh; fresh])) = []
  ∧ states (item_filter (config_on_lower lower_reject) store_720
              [item_noid; item_480] [fresh; fresh]) !! 0 = Some fresh.
Proof.
  apply (unidentified_entry_untouched (EA := item_entry) (QA := sample_quality)
           (config_on_lower lower_reject) store_720 [item_noid; item_480]
           [fresh; fresh] 0 item_noid).
  - reflexivity.
  - reflexivity.
Defined.

Lemma outside_target_untouched_witness :
  calls_on 0 (trace (item_filter config_target_1080 store_720
                       [item_480; item_1080] [fresh; fresh])) = []
  ∧ states (item_filter config_target_1080 store_720
              [item_480; item_1080] [fresh; fresh]) !! 0 = Some fresh.
Proof.
  apply (outside_target_untouched (EA := item_entry) (QA := sample_quality)
           config_target_1080 store_720 [item_480; item_1080] [fresh; fresh]
           "1080p"%string 0 item_480).
  - reflexivity.
  - reflexivity.
  - reflexivity.
Defined.

Lemma skip_only_accepts_witness :
  Forall (λ c, call_action c = Accept ∧ call_reason c = msg_upgraded)
    (trace (item_filter (config_on_lower lower_skip) store_720
              [item_480; item_1080] [fresh; fresh])).
Proof.
  apply (skip_only_accepts (EA := item_entry) (QA := sample_quality)
           (config_on_lower lower_skip) store_720 [item_480; item_1080]
           [fresh; fresh]).
  reflexivity.
Defined.

Lemma upgrade_accept_only_best_witness :
  ∃ e k ex,
    [item_480; item_1080] !! 1 = Some e
    ∧ group_key (EA := item_entry) "auto" e = Some k
    ∧ store_720 !! k = Some ex
    ∧ (up_quality ex < quality e)%Z.
Proof.
  destruct (upgrade_accept_only_best (EA := item_entry) (QA := sample_quality)
              (config_on_lower lower_reject) store_720 [item_480; item_1080]
              [fresh; fresh] 1)
    as (e & k & ex & He & Hk & Hex & Hlt & _).
  - vm_compute. apply elem_of_cons; by left.
  - by exists e, k, ex.
Defined.

Lemma lower_calls_exact_witness :
  calls_on 0 (trace (item_filter (config_on_lower lower_reject) store_720
                       [item_480; item_1080] [fresh; fresh]))
  = [mkCall 0 Reject (msg_lower lower_reject); mkCall 0 Reject (msg_entries lower_reject)].
Proof.
  apply (lower_calls_exact (EA := item_entry) (QA := sample_quality)
           (config_on_lower lower_reject) store_720 [item_480; item_1080]
           [fresh; fresh] show_id [(0, item_480); (1, item_1080)] record_720
           (1, item_1080) [(0, item_480)] (0, item_480)).
  - reflexivity.
  - vm_compute. apply elem_of_cons; by left.
  - reflexivity.
  - reflexivity.
  - reflexivity.
  - apply elem_of_cons; by left.
Defined.

Lemma learn_creates_record_witness :
  item_learn (CBool true) ∅ [item_720; item_1080] 7 !! show_id
  = Some (mkUpgrade (Some "Show S01E01 1080p"%string) 1080 None 7).
Proof.
  apply (learn_creates_record (EA := item_entry) (CBool true) ∅
           [item_720; item_1080] 7 show_id [(0, item_720); (1, item_1080)]
           (1, item_1080) [(0, item_720)]).
  - reflexivity.
  - vm_compute. apply elem_of_cons; by left.
  - reflexivity.
  - reflexivity.
Defined.

Lemma learn_upgrades_record_witness :
  item_learn (CBool true) store_720 [item_1080] 7 !! show_id
  = Some (mkUpgrade (Some "Show S01E01 1080p"%string) 1080 None 7).
Proof.
  apply (learn_upgrades_record (EA := item_entry) (CBool true) store_720
           [item_1080] 7 show_id [(0, item_1080)] (0, item_1080) [] record_720).
  - reflexivity.
  - vm_compute. apply elem_of_cons; by left.
  - reflexivity.
  - reflexivity.
  - simpl. lia.
Defined.

Lemma learn_frame_witness :
  item_learn (CBool true) store_720 [item_noid] 7 !! show_id = store_720 !! show_id.
Proof.
  apply (learn_frame (EA := item_entry) (CBool true) store_720 [item_noid] 7 show_id).
  intros [|i] e He; simpl in He; [|done]. injection He as <-. discriminate.
Defined.

Lemma learned_quality_dominates_witness :
  ∃ r, item_learn (CBool true) store_1080 [item_720] 7 !! show_id = Some r
       ∧ (quality item_720 ≤ up_quality r)%Z.
Proof.
  apply (learned_quality_dominates (EA := item_entry) (CBool true) store_1080
           [item_720] 7 0 item_720 show_id).
  - reflexivity.
  - reflexivity.
  - reflexivity.
Defined.

Lemma learn_keys_lower_witness :
  is_Some (item_learn (CBool true) store_720 [item_480] 7 !! show_id)
  ∧ lower show_id = show_id.
Proof.
  assert (is_Some (item_learn (CBool true) store_720 [item_480] 7 !! show_id))
    as Hrow by (by exists record_720).
  split; [done|].
  apply (learn_keys_lower (EA := item_entry) (CBool true) store_720 [item_480] 7);
    [|exact Hrow].
  intros k Hk. unfold store_720 in Hk. destruct (decide (k = show_id)) as [->|Hne].
  - reflexivity.
  - rewrite lookup_singleton_ne in Hk by done. by destruct Hk.
Defined.

Lemma no_upgrade_after_learn_witness :
  Forall (λ c, call_reason c ≠ msg_upgraded)
    (trace (item_filter (config_on_lower lower_reject)
              (item_learn (config_on_lower lower_reject) store_720
                 [item_480; item_1080] 7)
              [item_480; item_1080] [fresh; fresh])).
Proof.
  apply (no_upgrade_after_learn (EA := item_entry) (QA := sample_quality)
           (config_on_lower lower_reject) store_720 [item_480; item_1080] 7
           [fresh; fresh]).
  reflexivity.
Defined.

Lemma first_number_sound_witness :
  "4242"%string ≠ ""%string
  ∧ all_chars is_digit "4242" = true
  ∧ ∃ pre post, url topic_entry = (pre +:+ "4242" +:+ post)%string
                ∧ all_chars no_digit pre = true
                ∧ take_digits post = ""%string.
Proof.
  apply (first_number_sound (url topic_entry) "4242"). reflexivity.
Defined.

Lemma first_number_complete_witness :
  first_number ("viewtopic.php?t=" +:+ "4242" +:+ "&x=1") = Some "4242"%string.
Proof.
  apply (first_number_complete "viewtopic.php?t=" "4242" "&x=1").
  - reflexivity.
  - discriminate.
  - reflexivity.
  - reflexivity.
Defined.

Lemma RutrackerAuth_call_topic_witness :
  ∃ r, RutrackerAuth_call alice_cookies (topic_prefix +:+ "?t=" +:+ "4242" +:+ "")
       = inr r
       ∧ req_method r = "POST"%string
       ∧ req_url r = ("http://dl.rutracker.org/forum/dl.php?t=" +:+ "4242")%string
       ∧ req_body r = ("t=" +:+ "4242")%string
       ∧ req_cookies r = alice_cookies
       ∧ ("referer", "http://rutracker.org/forum/viewtopic.php?t=" +:+ "4242")%string
           ∈ req_headers r.
Proof.
  apply (RutrackerAuth_call_topic alice_cookies "4242" "").
  - discriminate.
  - reflexivity.
  - reflexivity.
Defined.

Lemma try_find_cookie_fresh_witness :
  [bob_good; alice_good] = [bob_good; alice_good]
  ∧ ∃ a, a ∈ [bob_good; alice_good] ∧ login a = "alice"%string
         ∧ cookies a = alice_cookies ∧ (500 ≤ expiry_time a)%Z.
Proof.
  apply (try_find_cookie_fresh [bob_good; alice_good] "alice" 500
           [bob_good; alice_good] alice_cookies).
  reflexivity.
Defined.

Lemma urlrewrite_attaches_witness :
  ∃ h, auth_cache (on_task_urlrewrite sample_post (mkAuthState [alice_expired] ∅)
                     "alice" "secret" 500 501 [topic_entry; other_entry]).1
         !! "alice"%string = Some h
       ∧ [mkUrlEntry (url topic_entry) (Some [("bb_data", "1-42-new")]%string);
          other_entry]
         = attach_auth h <$> [topic_entry; other_entry]
       ∧ ∀ i e, [topic_entry; other_entry] !! i = Some e →
           ∃ e', [mkUrlEntry (url topic_entry) (Some [("bb_data", "1-42-new")]%string);
                  other_entry] !! i = Some e'
                 ∧ url e' = url e
                 ∧ (String.prefix topic_prefix (url e) = true →
                    download_auth e' = Some h)
                 ∧ (String.prefix topic_prefix (url e) = false → e' = e).
Proof.
  apply (urlrewrite_attaches sample_post (mkAuthState [alice_expired] ∅)
           "alice" "secret" 500 501 [topic_entry; other_entry]).
  reflexivity.
Defined.

Lemma urlrewrite_cache_hit_witness :
  (on_task_urlrewrite sample_post
     (mkAuthState [alice_expired] {[ "alice"%string := alice_cookies ]})
     "alice" "wrong" 500 501 [topic_entry]).2
  = inr [mkUrlEntry (url topic_entry) (Some alice_cookies)].
Proof.
  destruct (urlrewrite_cache_hit sample_post
              (mkAuthState [alice_expired] {[ "alice"%string := alice_cookies ]})
              "alice" "wrong" 500 501 [topic_entry] alice_cookies)
    as (_ & _ & Hout).
  - reflexivity.
  - exact Hout.
Defined.

Lemma urlrewrite_other_users_witness :
  auth_cache (on_task_urlrewrite sample_post
                (mkAuthState [bob_good; alice_expired] {[ "bob"%string := alice_cookies ]})
                "alice" "secret" 500 501 [topic_entry]).1 !! "bob"%string
  = Some alice_cookies
  ∧ filter (λ a, login a = "bob"%string)
      (accounts (on_task_urlrewrite sample_post
                   (mkAuthState [bob_good; alice_expired]
                      {[ "bob"%string := alice_cookies ]})
                   "alice" "secret" 500 501 [topic_entry]).1)
    = [bob_good].
Proof.
  destruct (urlrewrite_other_users sample_post
              (mkAuthState [bob_good; alice_expired] {[ "bob"%string := alice_cookies ]})
              "alice" "secret" 500 501 [topic_entry] "bob") as [Hcache Haccounts].
  - discriminate.
  - split; [rewrite Hcache|rewrite Haccounts]; by vm_compute.
Defined.


Lemma urlrewrite_account_saved_witness :
  ∃ a, a ∈ accounts (on_task_urlrewrite sample_post (mkAuthState [alice_expired] ∅)
                       "alice" "secret" 500 501 [topic_entry]).1
       ∧ login a = "alice"%string ∧ (500 ≤ expiry_time a)%Z
       ∧ auth_cache (on_task_urlrewrite sample_post (mkAuthState [alice_expired] ∅)
                       "alice" "secret" 500 501 [topic_entry]).1 !! "alice"%string
         = Some (cookies a).
Proof.
  apply (urlrewrite_account_saved sample_post (mkAuthState [alice_expired] ∅)
           "alice" "secret" 500 501 [topic_entry] _
           [mkUrlEntry (url topic_entry) (Some [("bb_data", "1-42-new")]%string)]).
  - lia.
  - reflexivity.
  - reflexivity.
Defined.
